(** * Retrieval core of the food RAG application

    A shallow embedding of [lib/providers/database.ts] (with the parts of
    [lib/config.ts] it reads): the in-memory [SimpleVectorDatabase], the retry
    wrapper and soft-failing id listing of [UpstashDatabase], and the
    [createVectorDatabase] factory.

    JavaScript numbers are IEEE-754 binary64 values; they are modelled by
    Rocq's primitive floats, whose operations are the same correctly rounded
    operations ([Math.sqrt] is the IEEE square root).  Exceptions are explicit
    outcomes, object fields are threaded as state, [undefined] read from an
    array out of range is [None]. *)

From Stdlib Require Import String.
From Stdlib Require Import Floats ZArith List Bool Lia PeanoNat.
From Stdlib Require Import Sorted Permutation.
Import ListNotations.

Set Implicit Arguments.

(** ** JavaScript values and exceptions *)

Definition number := float.

(** ** Binary64 numbers as integers

    Every finite binary64 number is an integer multiple of [2^-1074]; the
    order of two numbers is the order of these multiples, and an operation
    of the format is the exact operation on them followed by rounding to 53
    significant bits, to nearest with ties to even. *)
Section Binary64Values.
Local Open Scope Z_scope.

(** The multiple of [2^-1074] a number stands for; the infinities are given
    the first power of two beyond every finite number. *)
Definition scaled (x : spec_float) : Z :=
  match x with
  | S754_zero _ => 0
  | S754_nan => 0
  | S754_infinity s => cond_Zopp s (2 ^ 2098)
  | S754_finite s m e => cond_Zopp s (Zpos m * 2 ^ (e + 1074))
  end.

Definition is_nan_sf (x : spec_float) : bool :=
  match x with S754_nan => true | _ => false end.

Definition finite_sf (x : spec_float) : bool :=
  match x with S754_zero _ | S754_finite _ _ _ => true | _ => false end.

(** Whether dropping the [sh] low bits of [n] rounds up. *)
Definition round_up (sh n : Z) : bool :=
  let r := n mod 2 ^ sh in
  (2 ^ sh <? 2 * r) || ((2 ^ sh =? 2 * r) && Z.odd (n / 2 ^ sh)).

(** The rounded value before the overflow threshold is applied. *)
Definition round_raw (n : Z) : Z :=
  let sh := Z.log2 n - 52 in
  if sh <=? 0 then n
  else (n / 2 ^ sh + (if round_up sh n then 1 else 0)) * 2 ^ sh.

(** Rounding of a non-negative multiple to the format. *)
Definition round_nat (n : Z) : Z :=
  let sh := Z.log2 n - 52 in
  if sh <=? 0 then n
  else Z.min ((n / 2 ^ sh + (if round_up sh n then 1 else 0)) * 2 ^ sh) (2 ^ 2098).

Definition round_scaled (n : Z) : Z :=
  if n <? 0 then - round_nat (- n) else round_nat n.

Definition F2Z (x : float) : Z := scaled (Prim2SF x).
End Binary64Values.

(** Thrown values.  [Error m] is [new Error(m)]; [TypeError m] is what the
    engine raises when a property of [undefined] is read. *)
Inductive exn : Type :=
| Error (message : string)
| TypeError (message : string).

Inductive outcome (A : Type) : Type :=
| Returned (a : A)
| Thrown (e : exn).
Arguments Returned {A} a.
Arguments Thrown {A} e.

(** The message of the length check in [cosineSimilarity]; the specification
    calls this failure DimensionMismatch. *)
Definition DimensionMismatch : exn := Error "Vectors must have the same length".

Definition UndefinedLength : exn :=
  TypeError "Cannot read properties of undefined (reading 'length')".

(** ** State and exception monad

    A method runs against a state [S] (the fields of [this] and the world it
    touches) and either returns or throws; a throw keeps the state reached so
    far, as JavaScript does not roll back. *)
Definition M (S A : Type) : Type := S -> outcome A * S.

Definition ret {S A} (a : A) : M S A := fun s => (Returned a, s).
Definition throw {S A} (e : exn) : M S A := fun s => (Thrown e, s).
Definition bind {S A B} (m : M S A) (k : A -> M S B) : M S B :=
  fun s => match m s with
           | (Returned a, s') => k a s'
           | (Thrown e, s') => (Thrown e, s')
           end.
Definition get {S} : M S S := fun s => (Returned s, s).
Definition put {S} (s : S) : M S unit := fun _ => (Returned tt, s).
Definition lift {S A} (o : outcome A) : M S A := fun s => (o, s).

Declare Scope js_scope.
Delimit Scope js_scope with js.
Notation "x <- m ;; k" := (bind m (fun x => k))
  (at level 61, m at next level, right associativity) : js_scope.
Notation "m ;;; k" := (bind m (fun _ => k))
  (at level 61, right associativity) : js_scope.

(** ** Array helpers *)

(** [Array.prototype.slice(start, end)] on integral arguments: a negative
    index counts from the end, and both are clamped to the array. *)
Definition relative_index (len i : Z) : Z :=
  if (i <? 0)%Z then Z.max (len + i) 0 else Z.min i len.

Definition slice {A} (l : list A) (start stop : Z) : list A :=
  let len := Z.of_nat (length l) in
  let k := relative_index len start in
  let final := relative_index len stop in
  firstn (Z.to_nat (final - k)) (skipn (Z.to_nat k) l).

(** [Array.prototype.sort(comparefn)].  ECMAScript requires the sort to be
    stable and reads a [NaN] returned by [comparefn] as [+0]; for a consistent
    comparator every conforming engine produces the list computed here (see
    [stable_sort_unique]), a stable insertion sort that moves an element past
    its successor only when [comparefn] is strictly positive. *)
Section Sort.
Variable A : Type.
Variable comparefn : A -> A -> number.

Fixpoint sort_insert (x : A) (l : list A) : list A :=
  match l with
  | [] => [x]
  | y :: l' => if (0 <? comparefn x y)%float then y :: sort_insert x l'
               else x :: y :: l'
  end.

Fixpoint sort (l : list A) : list A :=
  match l with
  | [] => []
  | x :: l' => sort_insert x (sort l')
  end.
End Sort.

(** Exceptions thrown by a callback of [Array.prototype.map] leave the map. *)
Fixpoint map_outcome {A B} (f : A -> outcome B) (l : list A) : outcome (list B) :=
  match l with
  | [] => Returned []
  | x :: l' =>
      match f x with
      | Thrown e => Thrown e
      | Returned y =>
          match map_outcome f l' with
          | Thrown e => Thrown e
          | Returned ys => Returned (y :: ys)
          end
      end
  end.

(** ** SimpleVectorDatabase *)

(** An element of [this.documents].  [ids[i]] and [embeddings[i]] are read
    without a bounds check in [addDocuments], so both may be [undefined]. *)
Record doc : Type := {
  id : option string;
  text : string;
  embedding : option (list number)
}.

Record RagResult : Type := {
  documents : list string;
  ids : list (option string);
  distances : list number
}.

(** What [fs] holds at [this.dataFile]. [Snapshot None] is a JSON file
    without a [documents] field. *)
Inductive file : Type :=
| Absent
| Corrupt (message : string)
| Snapshot (docs : option (list doc)).

(** The object and the file it mirrors itself to.  [write_failure] is the
    error [fs.writeFileSync] raises on [dataFile], if the file cannot be
    written. *)
Record SimpleVectorDatabase : Type := {
  this_documents : list doc;
  dataFile : file;
  write_failure : option exn
}.

Definition set_documents (docs : list doc) (s : SimpleVectorDatabase) :=
  {| this_documents := docs; dataFile := dataFile s;
     write_failure := write_failure s |}.

Definition initialize : M SimpleVectorDatabase unit := fun s =>
  match dataFile s with
  | Absent => (Returned tt, s)
  | Corrupt m =>
      (Thrown (Error (String.append "Simple Vector DB initialization failed: " m)), s)
  | Snapshot (Some docs) => (Returned tt, set_documents docs s)
  | Snapshot None => (Returned tt, set_documents [] s)
  end.

Definition saveToFile : M SimpleVectorDatabase unit := fun s =>
  match write_failure s with
  | None =>
      (Returned tt,
       {| this_documents := this_documents s;
          dataFile := Snapshot (Some (this_documents s));
          write_failure := None |})
  | Some e => (Thrown e, s)
  end.

Definition id_eqb (x y : option string) : bool :=
  match x, y with
  | Some a, Some b => String.eqb a b
  | None, None => true
  | _, _ => false
  end.

(** The records of a corpus that carry a given id. *)
Definition has_id (x : option string) (d : doc) : bool := id_eqb (id d) x.

(** One turn of the loop of [addDocuments]: drop the records carrying
    [ids[i]], then push the new one. *)
Definition add_one (embeddings : list (list number)) (ids : list string)
    (i : nat) (text_i : string) (corpus : list doc) : list doc :=
  filter (fun d => negb (id_eqb (id d) (nth_error ids i))) corpus
    ++ [ {| id := nth_error ids i; text := text_i;
            embedding := nth_error embeddings i |} ].

(** The loop [for (i = 0; i < documents.length; i++)], from index [i] on;
    [rest] is [documents] from position [i]. *)
Fixpoint add_loop (embeddings : list (list number)) (ids : list string)
    (i : nat) (rest : list string) (corpus : list doc) : list doc :=
  match rest with
  | [] => corpus
  | t :: rest' =>
      add_loop embeddings ids (S i) rest' (add_one embeddings ids i t corpus)
  end.

Definition addDocuments (documents : list string) (embeddings : list (list number))
    (ids : list string) : M SimpleVectorDatabase unit :=
  (s <- get ;;
   put (set_documents (add_loop embeddings ids 0 documents (this_documents s)) s) ;;;
   saveToFile)%js.

(** *** cosineSimilarity *)

(** The accumulating loop over [i < a.length], on vectors of equal length. *)
Fixpoint cosine_loop (a b : list number) (dotProduct normA normB : number)
  : number * number * number :=
  match a, b with
  | x :: a', y :: b' =>
      cosine_loop a' b' (dotProduct + x * y)%float (normA + x * x)%float
        (normB + y * y)%float
  | _, _ => (dotProduct, normA, normB)
  end.

(** The three sums the loop accumulates, each on its own: the dot product
    and the squared norm, added in index order from an initial value. *)
Fixpoint dot_from (acc : number) (a b : list number) : number :=
  match a, b with
  | x :: a', y :: b' => dot_from (acc + x * y)%float a' b'
  | _, _ => acc
  end.

Fixpoint sumsq_from (acc : number) (a : list number) : number :=
  match a with
  | x :: a' => sumsq_from (acc + x * x)%float a'
  | [] => acc
  end.

Definition dot (a b : list number) : number := dot_from 0%float a b.
Definition norm (a : list number) : number := sqrt (sumsq_from 0%float a).

Definition cosineSimilarity (a b : list number) : outcome number :=
  if negb (length a =? length b)%nat then Thrown DimensionMismatch
  else
    let '(dotProduct, normA, normB) := cosine_loop a b 0%float 0%float 0%float in
    let normA := sqrt normA in
    let normB := sqrt normB in
    if ((normA =? 0) || (normB =? 0))%float then Returned 0%float
    else Returned (dotProduct / (normA * normB))%float.

(** *** query *)

(** An element of [similarities]: the record spread, with its score. *)
Record scored : Type := {
  sdoc : doc;
  similarity : number;
  distance : number
}.

(** The callback of [this.documents.map] in [query]. Reading [.length] of an
    [undefined] embedding raises inside [cosineSimilarity]. *)
Definition score (queryEmbedding : list number) (d : doc) : outcome scored :=
  match embedding d with
  | None => Thrown UndefinedLength
  | Some e =>
      match cosineSimilarity queryEmbedding e with
      | Thrown x => Thrown x
      | Returned s =>
          Returned {| sdoc := d; similarity := s; distance := (1 - s)%float |}
      end
  end.

Definition empty_result : RagResult :=
  {| documents := []; ids := []; distances := [] |}.

(** The object literal returned by [query], built from [topResults]. *)
Definition result_of (topResults : list scored) : RagResult :=
  {| documents := map (fun r => text (sdoc r)) topResults;
     ids := map (fun r => id (sdoc r)) topResults;
     distances := map distance topResults |}.

Definition by_similarity (a b : scored) : number :=
  (similarity b - similarity a)%float.

Definition query (queryEmbedding : list number) (nResults : Z)
  : M SimpleVectorDatabase RagResult :=
  (s <- get ;;
   if (length (this_documents s) =? 0)%nat
   then ret empty_result
   else
     similarities <- lift (map_outcome (score queryEmbedding) (this_documents s)) ;;
     let similarities := sort by_similarity similarities in
     let topResults := slice similarities 0 nResults in
     ret (result_of topResults))%js.

Definition getExistingIds : M SimpleVectorDatabase (list (option string)) :=
  (s <- get ;; ret (map id (this_documents s)))%js.

(** ** UpstashDatabase *)

Definition COLLECTION_NAME : string := "foods".

Record QueryParams : Type := {
  vector : list number;
  topK : Z;
  includeMetadata : bool
}.

Record Metadata : Type := {
  md_document : option string;
  md_timestamp : option string
}.

(** An element of the array the service answers a query with; its [id] is a
    string or a number, [score] and [metadata] may be missing. *)
Record QueryResult : Type := {
  r_id : string + number;
  r_score : option number;
  r_metadata : option Metadata
}.

Record UpsertMetadata : Type := {
  um_document : option string;
  um_timestamp : string;
  um_collection : string
}.

Record UpsertItem : Type := {
  u_id : option string;
  u_vector : list number;
  u_metadata : UpsertMetadata
}.

(** What the retry wrapper does that a caller can observe besides the
    result: it invokes the operation and it waits on [setTimeout]. *)
Inductive event : Type :=
| Invoke
| Timeout (ms : Z).

(** How many times the operation was called in a record of events. *)
Definition invocations (l : list event) : nat :=
  length (filter (fun e => match e with Invoke => true | _ => false end) l).

Record UpstashRagResult : Type := {
  u_documents : list string;
  u_ids : list string;
  u_distances : list number;
  u_metadatas : list (number * option string)
}.

Section Upstash.
(** The remote service together with the network: every call of the client
    runs against it and may change it. *)
Variable W : Type.
(** [String(n)] on a number, and [new Date().toISOString()]. *)
Variable number_to_string : number -> string.
Variable toISOString_now : W -> string.

(** The [Index] client of the service's SDK. *)
Record Index : Type := {
  index_query : QueryParams -> M W (list QueryResult);
  index_upsert : list UpsertItem -> M W unit
}.

Record UpstashDatabase : Type := {
  index : option Index;
  retryAttempts : nat;
  retryDelay : Z;
  remote : W;
  log : list event
}.

Definition new_UpstashDatabase (w : W) : UpstashDatabase :=
  {| index := None; retryAttempts := 3; retryDelay := 1000;
     remote := w; log := [] |}.

(** The object once the service has moved to [w] and [events] happened;
    the three fields are not assigned by the methods below. *)
Definition after (s : UpstashDatabase) (w : W) (events : list event)
  : UpstashDatabase :=
  {| index := index s; retryAttempts := retryAttempts s;
     retryDelay := retryDelay s; remote := w; log := log s ++ events |}.

(** An operation is a thunk over the service; calling it is recorded. *)
Definition invoke {T} (operation : M W T) : M UpstashDatabase T := fun s =>
  let '(r, w) := operation (remote s) in (r, after s w [Invoke]).

(** [await new Promise(resolve => setTimeout(resolve, ms))]. *)
Definition sleep (ms : Z) : M UpstashDatabase unit := fun s =>
  (Returned tt, after s (remote s) [Timeout ms]).

(** The loop of [withRetry] from index [i], with [fuel] turns left
    ([fuel = retryAttempts - i]) and the value of [lastError].  What an
    operation throws is an [Error] object ([error as Error]), which is
    truthy, so [lastError || new Error(...)] is [lastError] once set. *)
Fixpoint retry_loop {T} (operation : M W T) (fuel i : nat)
    (lastError : option exn) : M UpstashDatabase T := fun s =>
  match fuel with
  | O =>
      match lastError with
      | Some e => (Thrown e, s)
      | None => (Thrown (Error "Operation failed after retries"), s)
      end
  | S fuel' =>
      match invoke operation s with
      | (Returned v, s1) => (Returned v, s1)
      | (Thrown e, s1) =>
          if (i <? retryAttempts s1 - 1)%nat
          then
            let '(_, s2) := sleep (retryDelay s1 * 2 ^ Z.of_nat i) s1 in
            retry_loop operation fuel' (S i) (Some e) s2
          else retry_loop operation fuel' (S i) (Some e) s1
      end
  end.

Definition withRetry {T} (operation : M W T) : M UpstashDatabase T := fun s =>
  retry_loop operation (retryAttempts s) 0 None s.

Definition NotInitialized : exn := Error "Upstash Vector not initialized".

Definition String_ (i : string + number) : string :=
  match i with
  | inl s => s
  | inr n => number_to_string n
  end.

(** [r.score || 0]: a missing score, [0] and [NaN] are falsy. *)
Definition score_or_0 (r : QueryResult) : number :=
  match r_score r with
  | None => 0%float
  | Some x => if ((x =? 0) || PrimFloat.is_nan x)%float then 0%float else x
  end.

(** [(r.metadata)?.document || ''] *)
Definition document_or_empty (r : QueryResult) : string :=
  match r_metadata r with
  | Some m => match md_document m with
              | Some d => d
              | None => EmptyString
              end
  | None => EmptyString
  end.

Definition timestamp_of (r : QueryResult) : option string :=
  match r_metadata r with
  | Some m => md_timestamp m
  | None => None
  end.

Definition upstash_query (queryEmbedding : list number) (nResults : Z)
  : M UpstashDatabase UpstashRagResult := fun s =>
  match index s with
  | None => (Thrown NotInitialized, s)
  | Some idx =>
      match withRetry (index_query idx
               {| vector := queryEmbedding; topK := nResults;
                  includeMetadata := true |}) s with
      | (Thrown e, s') => (Thrown e, s')
      | (Returned results, s') =>
          (Returned
             {| u_documents := map document_or_empty results;
                u_ids := map (fun r => String_ (r_id r)) results;
                u_distances := map (fun r => (1 - score_or_0 r)%float) results;
                u_metadatas := map (fun r => (score_or_0 r, timestamp_of r)) results |},
           s')
      end
  end.

(** [embeddings.map((embedding, i) => ...)] from position [i]. *)
Fixpoint upsert_items (documents : list string) (ids : list string)
    (stamp : string) (i : nat) (embeddings : list (list number)) : list UpsertItem :=
  match embeddings with
  | [] => []
  | e :: rest =>
      {| u_id := nth_error ids i; u_vector := e;
         u_metadata := {| um_document := nth_error documents i;
                          um_timestamp := stamp;
                          um_collection := COLLECTION_NAME |} |}
      :: upsert_items documents ids stamp (S i) rest
  end.

Definition upstash_addDocuments (documents : list string)
    (embeddings : list (list number)) (ids : list string)
  : M UpstashDatabase unit := fun s =>
  match index s with
  | None => (Thrown NotInitialized, s)
  | Some idx =>
      let vectors :=
        upsert_items documents ids (toISOString_now (remote s)) 0 embeddings in
      withRetry (index_upsert idx vectors) s
  end.

(** The dummy query of [getExistingIds]. *)
Definition bootstrap_query : QueryParams :=
  {| vector := repeat 0%float 1536; topK := 100; includeMetadata := false |}.

(** The bootstrap query of [getExistingIds] is made once, outside
    [withRetry], inside a [try] whose [catch] returns the empty array. *)
Definition upstash_getExistingIds : M UpstashDatabase (list string) := fun s =>
  match index s with
  | None => (Thrown NotInitialized, s)
  | Some idx =>
      match invoke (index_query idx bootstrap_query) s with
      | (Returned results, s') =>
          (Returned (map (fun r => String_ (r_id r)) results), s')
      | (Thrown _, s') => (Returned [], s')
      end
  end.
End Upstash.

(** ** Configuration and the factory *)

Inductive db_type : Type := chroma | upstash | simple.

(** The fields of [config] the factory reads; the two credentials are
    optional strings of the environment schema. *)
Record Config : Type := {
  VECTOR_DB_TYPE : db_type;
  UPSTASH_VECTOR_URL : option string;
  UPSTASH_VECTOR_TOKEN : option string
}.

(** Truthiness of [string | undefined]: [undefined] and [''] are falsy. *)
Definition truthy (s : option string) : bool :=
  match s with
  | None => false
  | Some EmptyString => false
  | Some (String _ _) => true
  end.

(** Which class [createVectorDatabase] instantiates. *)
Inductive VectorDatabase : Type :=
| new_SimpleVectorDatabase
| new_ChromaDatabase
| new_UpstashDatabase_.

Definition is_upstash (t : db_type) : bool :=
  match t with upstash => true | _ => false end.

Definition createVectorDatabase (config : Config) : VectorDatabase :=
  if is_upstash (VECTOR_DB_TYPE config)
     && truthy (UPSTASH_VECTOR_URL config)
     && truthy (UPSTASH_VECTOR_TOKEN config)
  then new_UpstashDatabase_
  else
    match VECTOR_DB_TYPE config with
    | chroma => new_ChromaDatabase
    | simple => new_SimpleVectorDatabase
    | _ => new_SimpleVectorDatabase
    end.

(** ** UpstashDatabase.initialize *)

Section UpstashInitialize.
Variable W : Type.
(** [new Index({ url, token })] of the service's SDK; it makes no call. *)
Variable new_Index : string -> string -> Index W.

(** The query [initialize] verifies the connection with; it names no
    [includeMetadata], which the client reads as false. *)
Definition verify_query : QueryParams :=
  {| vector := [0%float]; topK := 1; includeMetadata := false |}.

Definition CredentialsRequired : exn :=
  Error "Upstash Vector URL and TOKEN are required".

Definition VerificationFailed : exn :=
  Error "Failed to verify Upstash Vector connection".

Definition set_index (s : UpstashDatabase W) (idx : Index W) : UpstashDatabase W :=
  {| index := Some idx; retryAttempts := retryAttempts s;
     retryDelay := retryDelay s; remote := remote s; log := log s |}.

(** The [try] block: the credentials test, the assignment of [this.index],
    then the verifying query, whose failure [.catch] replaces by its own
    error; the outer [catch] rethrows what it caught. *)
Definition upstash_initialize (config : Config) : M (UpstashDatabase W) unit :=
  fun s =>
    match UPSTASH_VECTOR_URL config, UPSTASH_VECTOR_TOKEN config with
    | Some url, Some token =>
        if truthy (Some url) && truthy (Some token)
        then
          let idx := new_Index url token in
          match invoke (index_query idx verify_query) (set_index s idx) with
          | (Returned _, s') => (Returned tt, s')
          | (Thrown _, s') => (Thrown VerificationFailed, s')
          end
        else (Thrown CredentialsRequired, s)
    | _, _ => (Thrown CredentialsRequired, s)
    end.
End UpstashInitialize.

(** ** The environment schema of [lib/config.ts] *)

Inductive embedding_provider : Type := ollama_embedding | clarifai.
Inductive llm_provider : Type := ollama_llm | groq.

(** The variables of [process.env] that [validateEnv] reads; each is a
    string or [undefined]. *)
Record Env : Type := {
  env_VECTOR_DB_TYPE : option string;
  env_CHROMA_PATH : option string;
  env_UPSTASH_VECTOR_URL : option string;
  env_UPSTASH_VECTOR_TOKEN : option string;
  env_EMBEDDING_PROVIDER : option string;
  env_LLM_PROVIDER : option string;
  env_OLLAMA_BASE_URL : option string;
  env_EMBED_MODEL : option string;
  env_LLM_MODEL : option string;
  env_CLARIFAI_PAT : option string;
  env_CLARIFAI_MODEL_URL : option string;
  env_GROQ_API_KEY : option string;
  env_GROQ_MODEL : option string
}.

(** What [envSchema.parse] returns. *)
Record EnvConfig : Type := {
  cfg_VECTOR_DB_TYPE : db_type;
  cfg_CHROMA_PATH : string;
  cfg_UPSTASH_VECTOR_URL : option string;
  cfg_UPSTASH_VECTOR_TOKEN : option string;
  cfg_EMBEDDING_PROVIDER : embedding_provider;
  cfg_LLM_PROVIDER : llm_provider;
  cfg_OLLAMA_BASE_URL : string;
  cfg_EMBED_MODEL : string;
  cfg_LLM_MODEL : string;
  cfg_CLARIFAI_PAT : option string;
  cfg_CLARIFAI_MODEL_URL : option string;
  cfg_GROQ_API_KEY : option string;
  cfg_GROQ_MODEL : string
}.

(** [z.enum([...]).default(d)]: [undefined] gives the default, one of the
    listed strings gives itself, anything else is rejected ([None]). *)
Definition parse_db_type (v : option string) : option db_type :=
  match v with
  | None => Some upstash
  | Some x =>
      if String.eqb x "chroma" then Some chroma
      else if String.eqb x "upstash" then Some upstash
      else if String.eqb x "simple" then Some simple
      else None
  end.

Definition parse_embedding_provider (v : option string) : option embedding_provider :=
  match v with
  | None => Some ollama_embedding
  | Some x =>
      if String.eqb x "ollama" then Some ollama_embedding
      else if String.eqb x "clarifai" then Some clarifai
      else None
  end.

Definition parse_llm_provider (v : option string) : option llm_provider :=
  match v with
  | None => Some ollama_llm
  | Some x =>
      if String.eqb x "ollama" then Some ollama_llm
      else if String.eqb x "groq" then Some groq
      else None
  end.

(** [z.string().default(d)]: only [undefined] gives the default. *)
Definition string_default (d : string) (v : option string) : string :=
  match v with
  | None => d
  | Some x => x
  end.

Definition InvalidEnvironment : exn := Error "Invalid environment configuration".

(** [validateEnv]: the schema's parse, any failure of which is caught and
    replaced by the one error. *)
Definition validateEnv (env : Env) : outcome EnvConfig :=
  match parse_db_type (env_VECTOR_DB_TYPE env),
        parse_embedding_provider (env_EMBEDDING_PROVIDER env),
        parse_llm_provider (env_LLM_PROVIDER env) with
  | Some db, Some emb, Some llm =>
      Returned
        {| cfg_VECTOR_DB_TYPE := db;
           cfg_CHROMA_PATH := string_default "./chroma_db" (env_CHROMA_PATH env);
           cfg_UPSTASH_VECTOR_URL := env_UPSTASH_VECTOR_URL env;
           cfg_UPSTASH_VECTOR_TOKEN := env_UPSTASH_VECTOR_TOKEN env;
           cfg_EMBEDDING_PROVIDER := emb;
           cfg_LLM_PROVIDER := llm;
           cfg_OLLAMA_BASE_URL :=
             string_default "http://localhost:11434" (env_OLLAMA_BASE_URL env);
           cfg_EMBED_MODEL := string_default "mxbai-embed-large" (env_EMBED_MODEL env);
           cfg_LLM_MODEL := string_default "llama3.2" (env_LLM_MODEL env);
           cfg_CLARIFAI_PAT := env_CLARIFAI_PAT env;
           cfg_CLARIFAI_MODEL_URL := env_CLARIFAI_MODEL_URL env;
           cfg_GROQ_API_KEY := env_GROQ_API_KEY env;
           cfg_GROQ_MODEL :=
             string_default "llama-3.2-3b-preview" (env_GROQ_MODEL env) |}
  | _, _, _ => Thrown InvalidEnvironment
  end.

(** The part of [config] the database factory reads. *)
Definition config_of (c : EnvConfig) : Config :=
  {| VECTOR_DB_TYPE := cfg_VECTOR_DB_TYPE c;
     UPSTASH_VECTOR_URL := cfg_UPSTASH_VECTOR_URL c;
     UPSTASH_VECTOR_TOKEN := cfg_UPSTASH_VECTOR_TOKEN c |}.

(** Helpers of the statements below. *)

(** The ids [addDocuments] handles from position [i] on, one per remaining
    text ([undefined] where [ids] is too short). *)
Fixpoint batch_ids (ids : list string) (i : nat) (rest : list string)
  : list (option string) :=
  match rest with
  | [] => []
  | _ :: rest' => nth_error ids i :: batch_ids ids (S i) rest'
  end.

Definition id_in (l : list (option string)) (x : option string) : bool :=
  existsb (id_eqb x) l.

(** The records the loop pushes from position [i] on, in order. *)
Fixpoint batch_records (embeddings : list (list number)) (ids : list string)
    (i : nat) (rest : list string) : list doc :=
  match rest with
  | [] => []
  | t :: rest' =>
      {| id := nth_error ids i; text := t; embedding := nth_error embeddings i |}
      :: batch_records embeddings ids (S i) rest'
  end.

(** The total of the waits in a record of events. *)
Fixpoint waited (l : list event) : Z :=
  match l with
  | [] => 0
  | Timeout ms :: l' => ms + waited l'
  | Invoke :: l' => waited l'
  end.

(** * Properties *)

Unset Implicit Arguments.

(** ** Binary64 arithmetic: order, rounding, subtraction *)

Section Binary64.
Local Open Scope Z_scope.

Lemma digits2_pos_bounds m :
  2 ^ (Zpos (digits2_pos m) - 1) <= Zpos m < 2 ^ Zpos (digits2_pos m).
Proof.
  induction m as [m IH|m IH|]; simpl digits2_pos.
  - rewrite Pos2Z.inj_succ. replace (Z.succ (Zpos (digits2_pos m)) - 1) with (Z.succ (Zpos (digits2_pos m) - 1)) by lia.
    rewrite !Z.pow_succ_r by lia. lia.
  - rewrite Pos2Z.inj_succ. replace (Z.succ (Zpos (digits2_pos m)) - 1) with (Z.succ (Zpos (digits2_pos m) - 1)) by lia.
    rewrite !Z.pow_succ_r by lia. lia.
  - simpl. lia.
Qed.

(** What validity of a finite number says of its mantissa and exponent. *)

Lemma bounded_inv m e :
  bounded prec emax m e = true ->
  -1074 <= e <= 971 /\ Zpos (digits2_pos m) <= 53 /\
  (Zpos (digits2_pos m) = 53 \/ e = -1074).
Proof.
  unfold bounded, canonical_mantissa, fexp, SpecFloat.emin, prec, emax.
  intro H. apply andb_true_iff in H as [H1 H2].
  apply Z.eqb_eq in H1. apply Z.leb_le in H2. lia.
Qed.

Lemma finite_lt_pow m e :
  bounded prec emax m e = true -> 0 < Zpos m * 2 ^ (e + 1074) < 2 ^ 2098.
Proof.
  intro H. apply bounded_inv in H as (He & Hd & _).
  pose proof (digits2_pos_bounds m) as [_ Hm].
  assert (Zpos m < 2 ^ 53).
  { eapply Z.lt_le_trans; [exact Hm|]. apply Z.pow_le_mono_r; lia. }
  assert (0 < 2 ^ (e + 1074)) by (apply Z.pow_pos_nonneg; lia).
  assert (2 ^ (e + 1074) <= 2 ^ 2045) by (apply Z.pow_le_mono_r; lia).
  split; [lia|].
  replace 2098 with (53 + 2045) by lia. rewrite (Z.pow_add_r 2 53 2045) by lia.
  assert (0 < 2 ^ 53) by (apply Z.pow_pos_nonneg; lia).
  nia.
Qed.

Lemma scaled_cross (ma mb ea eb K : Z) :
  ea < eb -> -1074 <= ea -> 0 < K -> ma < 2 * K -> K <= mb ->
  ma * 2 ^ (ea + 1074) < mb * 2 ^ (eb + 1074).
Proof.
  intros Hlt Hea HK Hma Hmb.
  replace (eb + 1074) with ((ea + 1074) + (eb - ea)) by lia.
  rewrite (Z.pow_add_r 2 (ea + 1074) (eb - ea)) by lia.
  assert (HP : 0 < 2 ^ (ea + 1074)) by (apply Z.pow_pos_nonneg; lia).
  assert (HQ : 2 ^ 1 <= 2 ^ (eb - ea)) by (apply Z.pow_le_mono_r; lia).
  change (2 ^ 1) with 2 in HQ.
  generalize dependent (2 ^ (ea + 1074)). generalize dependent (2 ^ (eb - ea)).
  intros Q HQ P HP.
  assert (ma * P < 2 * K * P) by nia.
  assert (2 * K * P <= mb * 2 * P) by nia.
  assert (0 <= mb * P * (Q - 2)) by (apply Z.mul_nonneg_nonneg; nia).
  nia.
Qed.

Lemma finite_compare m1 e1 m2 e2 :
  bounded prec emax m1 e1 = true -> bounded prec emax m2 e2 = true ->
  match e1 ?= e2 with
  | Lt => Lt
  | Gt => Gt
  | Eq => Pos.compare_cont Eq m1 m2
  end = (Zpos m1 * 2 ^ (e1 + 1074) ?= Zpos m2 * 2 ^ (e2 + 1074)).
Proof.
  intros H1 H2.
  apply bounded_inv in H1 as (He1 & Hd1 & Hc1).
  apply bounded_inv in H2 as (He2 & Hd2 & Hc2).
  pose proof (digits2_pos_bounds m1) as [Hl1 Hu1].
  pose proof (digits2_pos_bounds m2) as [Hl2 Hu2].
  assert (P53 : forall m, Zpos (digits2_pos m) <= 53 -> Zpos m < 2 ^ Zpos (digits2_pos m) -> Zpos m < 2 * 2 ^ 52).
  { intros m Hd Hu. change (2 * 2 ^ 52) with (2 ^ 53).
    eapply Z.lt_le_trans; [exact Hu|]. apply Z.pow_le_mono_r; lia. }
  destruct (e1 ?= e2) eqn:E.
  - apply Z.compare_eq in E. subst e2.
    change (Pos.compare_cont Eq m1 m2) with (Zpos m1 ?= Zpos m2).
    apply Zmult_compare_compat_r.
    apply Z.lt_gt, Z.pow_pos_nonneg; lia.
  - symmetry. apply Z.compare_lt_iff. change (e1 < e2) in E.
    apply (scaled_cross _ _ _ _ (2 ^ 52)); [lia | lia | reflexivity | now apply P53 |].
    destruct Hc2 as [Hc2|Hc2]; [|lia]. rewrite Hc2 in Hl2. exact Hl2.
  - symmetry. apply Z.compare_gt_iff. change (e1 > e2) in E.
    apply (scaled_cross _ _ _ _ (2 ^ 52)); [lia | lia | reflexivity | now apply P53 |].
    destruct Hc1 as [Hc1|Hc1]; [|lia]. rewrite Hc1 in Hl1. exact Hl1.
Qed.

Lemma SFcompare_scaled x y :
  valid_binary x = true -> valid_binary y = true ->
  is_nan_sf x = false -> is_nan_sf y = false ->
  SFcompare x y = Some (scaled x ?= scaled y).
Proof.
  assert (B : 0 < 2 ^ 2098) by (apply Z.pow_pos_nonneg; lia).
  intros Vx Vy Nx Ny.
  destruct x as [sx|sx| |sx mx ex]; try discriminate;
  destruct y as [sy|sy| |sy my ey]; try discriminate; simpl in Vx, Vy;
    try (pose proof (finite_lt_pow _ _ Vx));
    try (pose proof (finite_lt_pow _ _ Vy));
    unfold SFcompare, scaled, cond_Zopp.
  all: try (destruct sx; destruct sy; f_equal; symmetry;
       first [ apply Z.compare_eq_iff; lia | apply Z.compare_lt_iff; lia | apply Z.compare_gt_iff; lia ]).
  all: try (destruct sx; f_equal; symmetry;
       first [ apply Z.compare_eq_iff; lia | apply Z.compare_lt_iff; lia | apply Z.compare_gt_iff; lia ]).
  all: try (destruct sy; f_equal; symmetry;
       first [ apply Z.compare_eq_iff; lia | apply Z.compare_lt_iff; lia | apply Z.compare_gt_iff; lia ]).
  all: try (f_equal; reflexivity).
  - (* finite finite same sign *)
    destruct sx, sy; f_equal.
    + rewrite Z.compare_opp.
      rewrite <- (finite_compare _ _ _ _ Vy Vx).
      rewrite (Z.compare_antisym ex ey).
      destruct (ex ?= ey) eqn:E; simpl; try reflexivity.
      rewrite Pos.compare_cont_antisym. reflexivity.
    + symmetry. apply Z.compare_lt_iff. lia.
    + symmetry. apply Z.compare_gt_iff. lia.
    + apply finite_compare; assumption.
Qed.

Lemma shr_1_spec m r s :
  0 <= m ->
  shr_1 {| shr_m := m; shr_r := r; shr_s := s |}
  = {| shr_m := Z.div2 m; shr_r := Z.odd m; shr_s := r || s |}.
Proof.
  intro H. destruct m as [|p|p]; [reflexivity| |lia].
  destruct p; reflexivity.
Qed.

Lemma iter_pos_nat {A} (f : A -> A) p : forall x,
  SpecFloat.iter_pos f p x = Nat.iter (Pos.to_nat p) f x.
Proof.
  induction p as [p IH|p IH|]; intro x; simpl SpecFloat.iter_pos.
  - rewrite !IH, Pos2Nat.inj_xI.
    replace (S (2 * Pos.to_nat p)) with (Pos.to_nat p + S (Pos.to_nat p))%nat by lia.
    rewrite Nat.iter_add. f_equal. now rewrite Nat.iter_succ_r.
  - rewrite !IH, Pos2Nat.inj_xO.
    replace (2 * Pos.to_nat p)%nat with (Pos.to_nat p + Pos.to_nat p)%nat by lia.
    now rewrite Nat.iter_add.
  - reflexivity.
Qed.

Lemma shr_nat mrs e n :
  0 <= n -> shr mrs e n = (Nat.iter (Z.to_nat n) shr_1 mrs, e + n).
Proof.
  intro H. destruct n as [|p|p]; simpl.
  - now rewrite Z.add_0_r.
  - now rewrite iter_pos_nat.
  - lia.
Qed.

(** Shifting out [k] bits of [m], from an exact start: what is left, the
    round bit and the sticky bit. *)
Lemma shr_iter k m :
  0 <= m ->
  let mrs := Nat.iter k shr_1 {| shr_m := m; shr_r := false; shr_s := false |} in
  let P := 2 ^ Z.of_nat k in
  shr_m mrs = m / P /\
  shr_r mrs = (P <=? 2 * (m mod P)) /\
  shr_s mrs = negb (m mod P =? 0) && negb (2 * (m mod P) =? P).
Proof.
  intro Hm. induction k as [|k IH].
  - simpl. rewrite Z.div_1_r, Z.mod_1_r. auto.
  - cbv zeta in IH |- *. rewrite Nat.iter_succ.
    destruct (Nat.iter k shr_1 _) as [q r s]. cbn [shr_m shr_r shr_s] in IH.
    destruct IH as (Hq & Hr & Hs).
    rewrite Nat2Z.inj_succ, Z.pow_succ_r by lia.
    assert (HP : 0 < 2 ^ Z.of_nat k) by (apply Z.pow_pos_nonneg; lia).
    set (P := 2 ^ Z.of_nat k) in *.
    assert (Hq0 : 0 <= q) by (subst q; apply Z.div_pos; lia).
    rewrite shr_1_spec by assumption. cbn [shr_m shr_r shr_s].
    pose proof (Z.div_mod m P ltac:(lia)) as Dm.
    pose proof (Z.mod_pos_bound m P HP) as Bm.
    rewrite <- Hq in Dm.
    pose proof (Zdiv2_odd_eqn q) as Dq.
    assert (HR : m mod (2 * P) = (if Z.odd q then P else 0) + m mod P).
    { symmetry. apply (Z.mod_unique_pos _ _ (Z.div2 q)).
      - destruct (Z.odd q); lia.
      - destruct (Z.odd q); nia. }
    assert (HQ : m / (2 * P) = Z.div2 q).
    { symmetry. apply (Z.div_unique_pos _ _ _ ((if Z.odd q then P else 0) + m mod P)).
      - destruct (Z.odd q); lia.
      - destruct (Z.odd q); nia. }
    rewrite HQ, HR, Hr, Hs. split; [reflexivity|].
    clear HR HQ Dm Hr Hs. set (R := m mod P) in *. clearbody R.
    split.
    + destruct (Z.odd q); symmetry; [apply Z.leb_le | apply Z.leb_gt]; lia.
    + apply Bool.eq_iff_eq_true.
      rewrite ?orb_true_iff, ?andb_true_iff, ?negb_true_iff, ?Z.eqb_neq,
        ?Z.eqb_eq, ?Z.leb_le.
      destruct (Z.odd q); lia.
Qed.

Lemma fexp_eq x : fexp prec emax x = Z.max (x - 53) (-1074).
Proof. reflexivity. Qed.

Lemma digits2_pos_unique p k :
  2 ^ (k - 1) <= Zpos p < 2 ^ k -> Zpos (digits2_pos p) = k.
Proof.
  intros [Hl Hu]. pose proof (digits2_pos_bounds p) as [Hl' Hu'].
  set (d := Zpos (digits2_pos p)) in *.
  destruct (Z.lt_trichotomy d k) as [H|[H|H]]; [|assumption|]; exfalso.
  - assert (2 ^ d <= 2 ^ (k - 1)) by (apply Z.pow_le_mono_r; lia). lia.
  - assert (2 ^ k <= 2 ^ (d - 1)) by (apply Z.pow_le_mono_r; lia). lia.
Qed.

Lemma round_shr k m :
  0 <= m ->
  let mrs := Nat.iter k shr_1 {| shr_m := m; shr_r := false; shr_s := false |} in
  round_nearest_even (shr_m mrs) (loc_of_shr_record mrs)
  = m / 2 ^ Z.of_nat k + (if round_up (Z.of_nat k) m then 1 else 0).
Proof.
  intros Hm mrs. destruct (shr_iter k m Hm) as (Hq & Hr & Hs).
  fold mrs in Hq, Hr, Hs. destruct mrs as [q r s].
  cbn [shr_m shr_r shr_s] in *. unfold round_up. rewrite <- Hq.
  assert (HP : 0 < 2 ^ Z.of_nat k) by (apply Z.pow_pos_nonneg; lia).
  pose proof (Z.mod_pos_bound m _ HP) as Bm.
  set (P := 2 ^ Z.of_nat k) in *. set (R := m mod P) in *. clearbody R P.
  subst r s.
  destruct (Z.leb_spec P (2 * R)); destruct (Z.eqb_spec R 0);
    destruct (Z.eqb_spec (2 * R) P); destruct (Z.ltb_spec P (2 * R));
    destruct (Z.eqb_spec P (2 * R)); try lia;
    cbn [negb andb orb loc_of_shr_record round_nearest_even];
    rewrite <- ?Z.negb_odd; destruct (Z.odd q); cbn [negb]; lia.
Qed.

(** A mantissa that already sits at its exponent is kept as it is. *)
Lemma binary_round_aux_exact s m e :
  fexp prec emax (Zpos (digits2_pos m) + e) = e ->
  binary_round_aux prec emax s (Zpos m) e loc_Exact
  = if e <=? 971 then S754_finite s m e else S754_infinity s.
Proof.
  intro H. unfold binary_round_aux, shr_fexp.
  cbn [Zdigits2 shr_record_of_loc]. rewrite H, Z.sub_diag.
  cbn [shr loc_of_shr_record shr_m round_nearest_even Zdigits2 shr_record_of_loc].
  rewrite H, Z.sub_diag. cbn [shr shr_m]. reflexivity.
Qed.

(** A mantissa of more than 53 bits is cut to 53 bits, rounded to nearest
    even, and renormalized when the rounding carries into a 54th bit. *)
Lemma binary_round_aux_cut s m e :
  let k := Zpos (digits2_pos m) - 53 in
  let q := Zpos m / 2 ^ k + (if round_up k (Zpos m) then 1 else 0) in
  0 < k -> -1074 <= e ->
  2 ^ 52 <= q <= 2 ^ 53 /\
  binary_round_aux prec emax s (Zpos m) e loc_Exact
  = if q <? 2 ^ 53
    then if e + k <=? 971 then S754_finite s (Z.to_pos q) (e + k)
         else S754_infinity s
    else if e + k + 1 <=? 971 then S754_finite s (Z.to_pos (2 ^ 52)) (e + k + 1)
         else S754_infinity s.
Proof.
  intros k q Hk He.
  pose proof (digits2_pos_bounds m) as [Hl Hu].
  assert (Hq1 : 2 ^ 52 <= Zpos m / 2 ^ k < 2 ^ 53).
  { assert (HP : 0 < 2 ^ k) by (apply Z.pow_pos_nonneg; lia).
    replace (Zpos (digits2_pos m) - 1) with (52 + k) in Hl by lia.
    replace (Zpos (digits2_pos m)) with (53 + k) in Hu by lia.
    rewrite Z.pow_add_r in Hl, Hu by lia. split.
    - apply Z.div_le_lower_bound; lia.
    - apply Z.div_lt_upper_bound; lia. }
  assert (Hq : 2 ^ 52 <= q <= 2 ^ 53).
  { unfold q. destruct (round_up k (Zpos m)); lia. }
  split; [exact Hq|].
  unfold binary_round_aux, shr_fexp. cbn [Zdigits2 shr_record_of_loc].
  rewrite fexp_eq.
  replace (Z.max (Zpos (digits2_pos m) + e - 53) (-1074) - e) with k by lia.
  rewrite shr_nat by lia. rewrite round_shr by lia.
  rewrite Z2Nat.id by lia. fold q.
  destruct q as [|pq|pq] eqn:Eq; [lia| |lia].
  cbn [Zdigits2]. rewrite fexp_eq.
  destruct (Z.ltb_spec (Zpos pq) (2 ^ 53)) as [Hlt|Hge].
  - rewrite (digits2_pos_unique pq 53) by (change (53 - 1) with 52; lia).
    replace (Z.max (53 + (e + k) - 53) (-1074) - (e + k)) with 0 by lia.
    cbn [shr shr_m]. reflexivity.
  - assert (Hpq : Zpos pq = 2 ^ 53) by lia.
    rewrite (digits2_pos_unique pq 54)
      by (rewrite Hpq; change (54 - 1) with 53; split; [lia|reflexivity]).
    replace (Z.max (54 + (e + k) - 53) (-1074) - (e + k)) with 1 by lia.
    replace pq with (Z.to_pos (2 ^ 53)) by (rewrite <- Hpq; reflexivity).
    cbn [shr]. change (SpecFloat.iter_pos shr_1 1 ?x) with (shr_1 x).
    reflexivity.
Qed.

Lemma log2_scaled m c :
  0 <= c -> Z.log2 (Zpos m * 2 ^ c) = Zpos (digits2_pos m) - 1 + c.
Proof.
  intro Hc. pose proof (digits2_pos_bounds m) as [Hl Hu].
  assert (0 < 2 ^ c) by (apply Z.pow_pos_nonneg; lia).
  apply Z.log2_unique; [lia|].
  replace (Z.succ (Zpos (digits2_pos m) - 1 + c)) with (Zpos (digits2_pos m) + c) by lia.
  rewrite !Z.pow_add_r by lia. split; nia.
Qed.

Lemma below_infinity q sh :
  0 <= q < 2 ^ 53 -> 0 <= sh <= 2045 -> q * 2 ^ sh < 2 ^ 2098.
Proof.
  intros Hq Hsh.
  assert (0 < 2 ^ sh) by (apply Z.pow_pos_nonneg; lia).
  assert (2 ^ sh <= 2 ^ 2045) by (apply Z.pow_le_mono_r; lia).
  change (2 ^ 2098) with (2 ^ 53 * 2 ^ 2045).
  generalize dependent (2 ^ sh). generalize dependent (2 ^ 2045).
  generalize dependent (2 ^ 53). intros. nia.
Qed.

Lemma above_infinity q sh :
  2 ^ 52 <= q -> 2046 <= sh -> 2 ^ 2098 <= q * 2 ^ sh.
Proof.
  intros Hq Hsh.
  assert (2 ^ 2046 <= 2 ^ sh) by (apply Z.pow_le_mono_r; lia).
  change (2 ^ 2098) with (2 ^ 52 * 2 ^ 2046).
  assert (0 < 2 ^ 52) by reflexivity. assert (0 < 2 ^ 2046) by reflexivity.
  generalize dependent (2 ^ sh). generalize dependent (2 ^ 2046).
  generalize dependent (2 ^ 52). intros. nia.
Qed.

Lemma round_up_scaled k c m :
  0 <= k -> 0 <= c -> round_up (k + c) (m * 2 ^ c) = round_up k m.
Proof.
  intros Hk Hc. unfold round_up.
  assert (HC : 0 < 2 ^ c) by (apply Z.pow_pos_nonneg; lia).
  assert (HK : 0 < 2 ^ k) by (apply Z.pow_pos_nonneg; lia).
  rewrite Z.pow_add_r by lia.
  rewrite Z.div_mul_cancel_r by lia.
  rewrite Z.mul_mod_distr_r by lia.
  set (R := m mod 2 ^ k). set (K := 2 ^ k) in *. set (C := 2 ^ c) in *.
  clearbody R K C.
  assert ((K * C <? 2 * (R * C)) = (K <? 2 * R)) as ->.
  { destruct (Z.ltb_spec K (2 * R)); [apply Z.ltb_lt | apply Z.ltb_ge]; nia. }
  assert ((K * C =? 2 * (R * C)) = (K =? 2 * R)) as ->.
  { destruct (Z.eqb_spec K (2 * R)); [apply Z.eqb_eq | apply Z.eqb_neq]; nia. }
  reflexivity.
Qed.

Lemma binary_round_aux_scaled s m e :
  -1074 <= e -> e <= fexp prec emax (Zpos (digits2_pos m) + e) ->
  let r := binary_round_aux prec emax s (Zpos m) e loc_Exact in
  is_nan_sf r = false /\
  scaled r = cond_Zopp s (round_nat (Zpos m * 2 ^ (e + 1074))).
Proof.
  intros He Hal r. rewrite fexp_eq in Hal.
  pose proof (digits2_pos_bounds m) as [Hl Hu].
  assert (HC : 0 < 2 ^ (e + 1074)) by (apply Z.pow_pos_nonneg; lia).
  unfold round_nat. rewrite log2_scaled by lia.
  destruct (Z.le_gt_cases (Zpos (digits2_pos m)) 53) as [Hd|Hd].
  - (* no bit is lost *)
    assert (Hm : Zpos m < 2 ^ 53).
    { eapply Z.lt_le_trans; [exact Hu|]. apply Z.pow_le_mono_r; lia. }
    unfold r. rewrite binary_round_aux_exact by (rewrite fexp_eq; lia).
    destruct (Z.leb_spec (Zpos (digits2_pos m) - 1 + (e + 1074) - 52) 0) as [Hsh|Hsh].
    + assert (Hc0 : e + 1074 = 0) by lia. rewrite Hc0.
      destruct (Z.leb_spec e 971); [|lia]. split; [reflexivity|].
      cbn [scaled]. now rewrite Hc0.
    + assert (Hd53 : Zpos (digits2_pos m) = 53) by lia.
      replace (Zpos (digits2_pos m) - 1 + (e + 1074) - 52) with (e + 1074) by lia.
      rewrite Z.div_mul by lia.
      replace (round_up (e + 1074) (Zpos m * 2 ^ (e + 1074))) with false.
      2:{ unfold round_up. rewrite Z.mod_mul by lia. symmetry.
          rewrite (proj2 (Z.ltb_ge _ _)) by lia.
          rewrite (proj2 (Z.eqb_neq _ _)) by lia. reflexivity. }
      rewrite Z.add_0_r.
      destruct (Z.leb_spec e 971).
      * split; [reflexivity|]. cbn [scaled].
        rewrite Z.min_l; [reflexivity|].
        apply Z.lt_le_incl, below_infinity; lia.
      * split; [reflexivity|]. cbn [scaled].
        rewrite Z.min_r; [reflexivity|].
        apply above_infinity; [|lia].
        rewrite Hd53 in Hl. exact Hl.
  - (* the mantissa is cut to 53 bits *)
    set (k := Zpos (digits2_pos m) - 53).
    destruct (binary_round_aux_cut s m e ltac:(lia) He) as [Hq Hr].
    fold k in Hq, Hr. unfold r. rewrite Hr. clear Hr r.
    replace (Zpos (digits2_pos m) - 1 + (e + 1074) - 52) with (k + (e + 1074)) by lia.
    destruct (Z.leb_spec (k + (e + 1074)) 0); [lia|].
    rewrite round_up_scaled by lia.
    rewrite (Z.pow_add_r 2 k (e + 1074)) at 1 by lia.
    rewrite Z.div_mul_cancel_r by (try apply Z.pow_nonzero; lia).
    set (q := Zpos m / 2 ^ k + (if round_up k (Zpos m) then 1 else 0)) in *.
    destruct (Z.ltb_spec q (2 ^ 53)) as [Hlt|Hge].
    + destruct (Z.leb_spec (e + k) 971).
      * split; [reflexivity|]. cbn [scaled].
        rewrite Z2Pos.id by lia.
        replace (e + k + 1074) with (k + (e + 1074)) by lia.
        rewrite Z.min_l; [reflexivity|].
        apply Z.lt_le_incl, below_infinity; lia.
      * split; [reflexivity|]. cbn [scaled].
        rewrite Z.min_r; [reflexivity|]. apply above_infinity; lia.
    + assert (Hq53 : q = 2 ^ 53) by lia. rewrite Hq53.
      destruct (Z.leb_spec (e + k + 1) 971).
      * split; [reflexivity|]. cbn [scaled].
        rewrite Z2Pos.id by reflexivity.
        replace (e + k + 1 + 1074) with (Z.succ (k + (e + 1074))) by lia.
        rewrite Z.pow_succ_r by lia.
        change (2 ^ 53) with (2 ^ 52 * 2).
        rewrite Z.min_l; [f_equal; lia|].
        change (2 ^ 52 * 2) with (2 ^ 53).
        replace (2 ^ 53 * 2 ^ (k + (e + 1074))) with (2 ^ 52 * 2 ^ (Z.succ (k + (e + 1074))))
          by (rewrite Z.pow_succ_r by lia; change (2 ^ 53) with (2 ^ 52 * 2); lia).
        apply Z.lt_le_incl, below_infinity;
          [split; [apply Z.pow_nonneg; lia|reflexivity]|lia].
      * split; [reflexivity|]. cbn [scaled].
        rewrite Z.min_r; [reflexivity|].
        replace (2 ^ 53 * 2 ^ (k + (e + 1074))) with (2 ^ 52 * 2 ^ (Z.succ (k + (e + 1074))))
          by (rewrite Z.pow_succ_r by lia; change (2 ^ 53) with (2 ^ 52 * 2); lia).
        apply above_infinity; [reflexivity|lia].
Qed.

Lemma iter_xO m d : Zpos (Pos.iter xO m d) = Zpos m * 2 ^ Zpos d.
Proof.
  induction d as [|d IH] using Pos.peano_ind.
  - simpl. lia.
  - rewrite Pos.iter_succ, Pos2Z.inj_succ, Z.pow_succ_r by lia.
    rewrite Pos2Z.inj_xO, IH. lia.
Qed.

Lemma shl_align_spec m e e0 :
  e0 <= e ->
  Zpos (fst (shl_align m e e0)) = Zpos m * 2 ^ (e - e0) /\
  snd (shl_align m e e0) = e0.
Proof.
  intro H. unfold shl_align. destruct (e0 - e) as [|d|d] eqn:E.
  - replace (e - e0) with 0 by lia. cbn [fst snd]. split; lia.
  - lia.
  - cbn [fst snd]. rewrite iter_xO. replace (e - e0) with (Zpos d) by lia. auto.
Qed.

Lemma binary_round_scaled s m e :
  -1074 <= e ->
  let r := binary_round prec emax s m e in
  is_nan_sf r = false /\
  scaled r = cond_Zopp s (round_nat (Zpos m * 2 ^ (e + 1074))).
Proof.
  intros He r. unfold r, binary_round.
  set (e0 := fexp prec emax (Zpos (digits2_pos m) + e)).
  assert (He0 : e0 = Z.max (Zpos (digits2_pos m) + e - 53) (-1074)) by apply fexp_eq.
  destruct (Z.le_gt_cases e e0) as [Hle|Hgt].
  - assert (shl_align m e e0 = (m, e)) as ->.
    { unfold shl_align. destruct (e0 - e) eqn:E; try reflexivity. lia. }
    apply binary_round_aux_scaled; [assumption|]. fold e0. assumption.
  - destruct (shl_align_spec m e e0 ltac:(lia)) as [Hm Hs].
    destruct (shl_align m e e0) as [mz ez]. cbn [fst snd] in Hm, Hs. subst ez.
    assert (Hd : Zpos (digits2_pos mz) = Zpos (digits2_pos m) + (e - e0)).
    { apply digits2_pos_unique. rewrite Hm.
      pose proof (digits2_pos_bounds m) as [Hl Hu].
      assert (0 < 2 ^ (e - e0)) by (apply Z.pow_pos_nonneg; lia).
      replace (Zpos (digits2_pos m) + (e - e0) - 1)
        with (Zpos (digits2_pos m) - 1 + (e - e0)) by lia.
      rewrite !Z.pow_add_r by lia. split; nia. }
    replace (Zpos m * 2 ^ (e + 1074)) with (Zpos mz * 2 ^ (e0 + 1074)).
    + apply binary_round_aux_scaled; [lia|]. rewrite Hd, fexp_eq. lia.
    + rewrite Hm, <- Z.mul_assoc, <- Z.pow_add_r by lia. f_equal. f_equal. lia.
Qed.

Lemma round_nat_0 : round_nat 0 = 0.
Proof. reflexivity. Qed.

Lemma binary_normalize_scaled M e sz :
  -1074 <= e ->
  let r := binary_normalize prec emax M e sz in
  is_nan_sf r = false /\ scaled r = round_scaled (M * 2 ^ (e + 1074)).
Proof.
  intros He r. unfold r, binary_normalize, round_scaled.
  assert (HC : 0 < 2 ^ (e + 1074)) by (apply Z.pow_pos_nonneg; lia).
  destruct M as [|m|m].
  - split; reflexivity.
  - destruct (Z.ltb_spec (Zpos m * 2 ^ (e + 1074)) 0); [lia|].
    now apply binary_round_scaled.
  - destruct (Z.ltb_spec (Zneg m * 2 ^ (e + 1074)) 0); [|lia].
    replace (- (Zneg m * 2 ^ (e + 1074))) with (Zpos m * 2 ^ (e + 1074)) by lia.
    now apply (binary_round_scaled true).
Qed.

(** A representable value rounds to itself. *)
Lemma round_nat_representable m e :
  bounded prec emax m e = true ->
  round_nat (Zpos m * 2 ^ (e + 1074)) = Zpos m * 2 ^ (e + 1074).
Proof.
  intro V. pose proof (finite_lt_pow _ _ V) as B.
  apply bounded_inv in V as (He & Hd & Hc).
  unfold round_nat. rewrite log2_scaled by lia.
  destruct (Z.leb_spec (Zpos (digits2_pos m) - 1 + (e + 1074) - 52) 0); [reflexivity|].
  assert (Hd53 : Zpos (digits2_pos m) = 53) by lia.
  replace (Zpos (digits2_pos m) - 1 + (e + 1074) - 52) with (e + 1074) by lia.
  assert (HC : 0 < 2 ^ (e + 1074)) by (apply Z.pow_pos_nonneg; lia).
  rewrite Z.div_mul by lia.
  replace (round_up (e + 1074) (Zpos m * 2 ^ (e + 1074))) with false.
  - rewrite Z.add_0_r. apply Z.min_l. lia.
  - unfold round_up. rewrite Z.mod_mul by lia. symmetry.
    rewrite (proj2 (Z.ltb_ge _ _)) by lia.
    rewrite (proj2 (Z.eqb_neq _ _)) by lia. reflexivity.
Qed.

Lemma round_scaled_representable s m e :
  bounded prec emax m e = true ->
  round_scaled (cond_Zopp s (Zpos m * 2 ^ (e + 1074)))
  = cond_Zopp s (Zpos m * 2 ^ (e + 1074)).
Proof.
  intro V. pose proof (finite_lt_pow _ _ V) as B.
  pose proof (round_nat_representable _ _ V) as R.
  unfold round_scaled, cond_Zopp. destruct s.
  - destruct (Z.ltb_spec (- (Zpos m * 2 ^ (e + 1074))) 0); [|lia].
    rewrite Z.opp_involutive. now rewrite R.
  - destruct (Z.ltb_spec (Zpos m * 2 ^ (e + 1074)) 0); [lia|]. exact R.
Qed.

(** Subtraction of finite numbers is the exact difference, rounded. *)
Lemma SFsub_scaled x y :
  valid_binary x = true -> valid_binary y = true ->
  finite_sf x = true -> finite_sf y = true ->
  is_nan_sf (SF64sub x y) = false /\
  scaled (SF64sub x y) = round_scaled (scaled x - scaled y).
Proof.
  intros Vx Vy Fx Fy.
  destruct x as [sx|sx| |sx mx ex]; try discriminate;
  destruct y as [sy|sy| |sy my ey]; try discriminate;
  cbn [valid_binary] in Vx, Vy.
  - split; now destruct sx, sy.
  - split; [reflexivity|]. cbn [SF64sub SFsub scaled].
    rewrite <- (round_scaled_representable (negb sy) _ _ Vy).
    f_equal. unfold cond_Zopp. destruct sy; cbn [negb]; lia.
  - split; [reflexivity|]. cbn [SF64sub SFsub scaled].
    rewrite Z.sub_0_r. symmetry. now apply round_scaled_representable.
  - unfold SF64sub, SFsub.
    apply bounded_inv in Vx as (Hex & _). apply bounded_inv in Vy as (Hey & _).
    set (ez := Z.min ex ey).
    assert (Hez : -1074 <= ez /\ ez <= ex /\ ez <= ey) by (unfold ez; lia).
    destruct (binary_normalize_scaled
                (cond_Zopp sx (Zpos (fst (shl_align mx ex ez)))
                 - cond_Zopp sy (Zpos (fst (shl_align my ey ez)))) ez false
                ltac:(lia)) as [Hn Hs].
    split; [exact Hn|]. rewrite Hs. f_equal. cbn [scaled].
    destruct (shl_align_spec mx ex ez ltac:(lia)) as [-> _].
    destruct (shl_align_spec my ey ez ltac:(lia)) as [-> _].
    replace (ex + 1074) with ((ex - ez) + (ez + 1074)) by lia.
    replace (ey + 1074) with ((ey - ez) + (ez + 1074)) by lia.
    rewrite (Z.pow_add_r 2 (ex - ez)), (Z.pow_add_r 2 (ey - ez)) by lia.
    unfold cond_Zopp. destruct sx, sy; ring.
Qed.

Lemma round_raw_bounds n :
  0 < n -> 2 ^ Z.log2 n <= round_raw n <= 2 ^ (Z.log2 n + 1).
Proof.
  intro Hn. pose proof (Z.log2_spec n Hn) as [Hl Hu].
  rewrite <- Z.add_1_r in Hu. unfold round_raw.
  destruct (Z.leb_spec (Z.log2 n - 52) 0) as [Hsh|Hsh]; [lia|].
  set (sh := Z.log2 n - 52) in *.
  assert (HP : 0 < 2 ^ sh) by (apply Z.pow_pos_nonneg; lia).
  assert (E1 : 2 ^ (Z.log2 n + 1) = 2 ^ 53 * 2 ^ sh).
  { rewrite <- Z.pow_add_r by lia. f_equal. unfold sh. lia. }
  assert (E0 : 2 ^ Z.log2 n = 2 ^ 52 * 2 ^ sh).
  { rewrite <- Z.pow_add_r by lia. f_equal. unfold sh. lia. }
  rewrite E1, E0 in *.
  assert (2 ^ 52 <= n / 2 ^ sh < 2 ^ 53).
  { split; [apply Z.div_le_lower_bound | apply Z.div_lt_upper_bound]; lia. }
  destruct (round_up sh n); nia.
Qed.

Lemma round_nat_raw n : 0 <= n -> round_nat n = Z.min (round_raw n) (2 ^ 2098).
Proof.
  intro Hn. unfold round_nat, round_raw.
  destruct (Z.leb_spec (Z.log2 n - 52) 0) as [Hsh|Hsh]; [|reflexivity].
  symmetry. apply Z.min_l.
  destruct (Z.eq_dec n 0) as [->|Hn0]; [apply Z.pow_nonneg; lia|].
  pose proof (Z.log2_spec n ltac:(lia)) as [_ Hu].
  assert (2 ^ Z.succ (Z.log2 n) <= 2 ^ 2098) by (apply Z.pow_le_mono_r; lia).
  lia.
Qed.

Lemma round_up_mono P n1 n2 q :
  0 < P -> n1 <= n2 -> n1 / P = q -> n2 / P = q ->
  let up n := (P <? 2 * (n mod P)) || ((P =? 2 * (n mod P)) && Z.odd q) in
  up n1 = true -> up n2 = true.
Proof.
  intros HP Hle H1 H2 up. unfold up.
  pose proof (Z.div_mod n1 P ltac:(lia)) as D1.
  pose proof (Z.div_mod n2 P ltac:(lia)) as D2.
  rewrite H1 in D1. rewrite H2 in D2.
  assert (n1 mod P <= n2 mod P) by lia.
  generalize dependent (n1 mod P). generalize dependent (n2 mod P).
  intros R2 _ R1 _ HR.
  rewrite !orb_true_iff, !andb_true_iff, !Z.ltb_lt, !Z.eqb_eq.
  intros [Hlt|[Heq Hodd]]; [left; lia|].
  destruct (Z.eq_dec R1 R2); [right; split; [lia|assumption] | left; lia].
Qed.

Lemma round_raw_mono n1 n2 : 0 <= n1 <= n2 -> round_raw n1 <= round_raw n2.
Proof.
  intros [H1 H12].
  destruct (Z.eq_dec n1 0) as [->|Hn1].
  { destruct (Z.eq_dec n2 0) as [->|Hn2]; [reflexivity|].
    pose proof (round_raw_bounds n2 ltac:(lia)) as [Hl _].
    assert (0 < 2 ^ Z.log2 n2) by (apply Z.pow_pos_nonneg; [lia | apply Z.log2_nonneg]).
    change (round_raw 0) with 0. lia. }
  pose proof (round_raw_bounds n1 ltac:(lia)) as [_ Hu1].
  pose proof (round_raw_bounds n2 ltac:(lia)) as [Hl2 _].
  pose proof (Z.log2_le_mono n1 n2 H12) as HL.
  destruct (Z.eq_dec (Z.log2 n1) (Z.log2 n2)) as [E|NE].
  - unfold round_raw. rewrite E.
    destruct (Z.leb_spec (Z.log2 n2 - 52) 0) as [Hsh|Hsh]; [assumption|].
    set (sh := Z.log2 n2 - 52) in *.
    assert (HP : 0 < 2 ^ sh) by (apply Z.pow_pos_nonneg; lia).
    apply Z.mul_le_mono_nonneg_r; [lia|].
    pose proof (Z.div_le_mono n1 n2 (2 ^ sh) HP H12) as Hq.
    destruct (Z.eq_dec (n1 / 2 ^ sh) (n2 / 2 ^ sh)) as [Eq|Nq].
    + rewrite Eq. apply Z.add_le_mono_l.
      destruct (round_up sh n1) eqn:U1; [|destruct (round_up sh n2); lia].
      unfold round_up in U1 |- *. rewrite Eq in U1.
      rewrite (round_up_mono (2 ^ sh) n1 n2 (n2 / 2 ^ sh) HP H12 Eq eq_refl U1).
      reflexivity.
    + destruct (round_up sh n1), (round_up sh n2); lia.
  - assert (2 ^ (Z.log2 n1 + 1) <= 2 ^ Z.log2 n2) by (apply Z.pow_le_mono_r; lia).
    lia.
Qed.

Lemma round_nat_mono n1 n2 : 0 <= n1 <= n2 -> round_nat n1 <= round_nat n2.
Proof.
  intros H. rewrite !round_nat_raw by lia.
  apply Z.min_le_compat_r. now apply round_raw_mono.
Qed.

Lemma round_nat_pos n : 0 < n -> 0 < round_nat n.
Proof.
  intro H. rewrite round_nat_raw by lia.
  pose proof (round_raw_bounds n H) as [Hl _].
  assert (0 < 2 ^ Z.log2 n) by (apply Z.pow_pos_nonneg; [lia | apply Z.log2_nonneg]).
  assert (0 < 2 ^ 2098) by reflexivity. lia.
Qed.

Lemma round_scaled_mono n1 n2 : n1 <= n2 -> round_scaled n1 <= round_scaled n2.
Proof.
  intro H. unfold round_scaled.
  destruct (Z.ltb_spec n1 0), (Z.ltb_spec n2 0).
  - apply -> Z.opp_le_mono. apply round_nat_mono. lia.
  - pose proof (round_nat_mono 0 (- n1) ltac:(lia)).
    pose proof (round_nat_mono 0 n2 ltac:(lia)).
    change (round_nat 0) with 0 in *. lia.
  - lia.
  - apply round_nat_mono. lia.
Qed.

Lemma round_scaled_sign n :
  (0 < round_scaled n <-> 0 < n) /\ (round_scaled n < 0 <-> n < 0).
Proof.
  unfold round_scaled. destruct (Z.ltb_spec n 0).
  - pose proof (round_nat_pos (- n) ltac:(lia)). lia.
  - destruct (Z.eq_dec n 0) as [->|].
    + change (round_nat 0) with 0. lia.
    + pose proof (round_nat_pos n ltac:(lia)). lia.
Qed.

Lemma SFcompare_refl x : is_nan_sf x = false -> SFcompare x x = Some Eq.
Proof.
  destruct x as [s|s| |s m e]; try discriminate; intros _; cbn.
  - reflexivity.
  - now destruct s.
  - rewrite Z.compare_refl.
    change (Pos.compare_cont Eq m m) with (Pos.compare m m).
    rewrite Pos.compare_refl. now destruct s.
Qed.

Lemma is_nan_Prim2SF x : PrimFloat.is_nan x = is_nan_sf (Prim2SF x).
Proof.
  unfold PrimFloat.is_nan. rewrite FloatAxioms.eqb_spec. unfold SFeqb.
  destruct (is_nan_sf (Prim2SF x)) eqn:E.
  - destruct (Prim2SF x); try discriminate. reflexivity.
  - now rewrite SFcompare_refl.
Qed.

Lemma compare_F2Z x y :
  PrimFloat.is_nan x = false -> PrimFloat.is_nan y = false ->
  SFcompare (Prim2SF x) (Prim2SF y) = Some (F2Z x ?= F2Z y).
Proof.
  intros Hx Hy. rewrite is_nan_Prim2SF in Hx, Hy.
  apply SFcompare_scaled; auto using Prim2SF_valid.
Qed.

Lemma ltb_F2Z x y :
  PrimFloat.is_nan x = false -> PrimFloat.is_nan y = false ->
  (x <? y)%float = (F2Z x <? F2Z y).
Proof.
  intros Hx Hy. rewrite FloatAxioms.ltb_spec. unfold SFltb, Z.ltb.
  now rewrite compare_F2Z.
Qed.

Lemma leb_F2Z x y :
  PrimFloat.is_nan x = false -> PrimFloat.is_nan y = false ->
  (x <=? y)%float = (F2Z x <=? F2Z y).
Proof.
  intros Hx Hy. rewrite FloatAxioms.leb_spec. unfold SFleb, Z.leb.
  rewrite compare_F2Z by assumption. now destruct (F2Z x ?= F2Z y).
Qed.

Lemma eqb_F2Z x y :
  PrimFloat.is_nan x = false -> PrimFloat.is_nan y = false ->
  (x =? y)%float = (F2Z x =? F2Z y).
Proof.
  intros Hx Hy. rewrite FloatAxioms.eqb_spec. unfold SFeqb.
  rewrite compare_F2Z by assumption.
  destruct (Z.compare_spec (F2Z x) (F2Z y)); symmetry;
    [apply Z.eqb_eq | apply Z.eqb_neq | apply Z.eqb_neq]; lia.
Qed.

Lemma infinity_or_finite x :
  is_nan_sf x = false ->
  finite_sf x = true \/ exists s, x = S754_infinity s.
Proof. destruct x; try discriminate; eauto. Qed.

(** The sign of a difference is the order of its operands. *)
Lemma sub_sign x y :
  PrimFloat.is_nan x = false -> PrimFloat.is_nan y = false ->
  (0 <? y - x)%float = (x <? y)%float.
Proof.
  intros Hx Hy. rewrite (FloatAxioms.ltb_spec x y).
  pose proof (Prim2SF_valid x) as Vx. pose proof (Prim2SF_valid y) as Vy.
  pose proof (Prim2SF_valid (y - x)) as Vs.
  rewrite is_nan_Prim2SF in Hx, Hy.
  rewrite FloatAxioms.ltb_spec. rewrite sub_spec in *.
  change (Prim2SF 0) with (S754_zero false).
  destruct (infinity_or_finite _ Hx) as [Fx|[sx Ex]];
  destruct (infinity_or_finite _ Hy) as [Fy|[sy Ey]].
  - destruct (SFsub_scaled _ _ Vy Vx Fy Fx) as [Hn Hs].
    unfold SFltb.
    rewrite (SFcompare_scaled (S754_zero false) _ eq_refl Vs eq_refl Hn).
    rewrite (SFcompare_scaled _ _ Vx Vy Hx Hy).
    rewrite Hs. cbn [scaled].
    pose proof (round_scaled_sign (scaled (Prim2SF y) - scaled (Prim2SF x))) as [Hp _].
    change (match ?a ?= ?b with Lt => true | _ => false end) with (a <? b).
    destruct (Z.ltb_spec (scaled (Prim2SF x)) (scaled (Prim2SF y)));
      [apply Z.ltb_lt | apply Z.ltb_ge]; lia.
  - rewrite Ey in *. destruct (Prim2SF x) as [s|s| |s m e]; try discriminate;
      destruct sy; reflexivity.
  - rewrite Ex in *. destruct (Prim2SF y) as [s|s| |s m e]; try discriminate;
      destruct sx; try reflexivity; destruct s; reflexivity.
  - rewrite Ex, Ey. destruct sx, sy; reflexivity.
Qed.

(** [1 - x] is the rounded exact difference, for infinite [x] as well. *)
Lemma sub_one x :
  PrimFloat.is_nan x = false ->
  PrimFloat.is_nan (1 - x)%float = false /\
  F2Z (1 - x)%float = round_scaled (2 ^ 1074 - F2Z x).
Proof.
  intro Hx. rewrite !is_nan_Prim2SF in *. unfold F2Z. rewrite sub_spec.
  pose proof (Prim2SF_valid x) as Vx.
  change (Prim2SF 1) with (S754_finite false 4503599627370496 (-52)).
  destruct (infinity_or_finite _ Hx) as [Fx|[sx Ex]].
  - apply (SFsub_scaled (S754_finite false 4503599627370496 (-52)) _ eq_refl Vx eq_refl Fx).
  - rewrite Ex. destruct sx; split; try reflexivity; vm_compute; reflexivity.
Qed.

(** A larger similarity gives a distance that is not larger. *)
Lemma distance_antitone x y :
  PrimFloat.is_nan x = false -> PrimFloat.is_nan y = false ->
  (x <=? y)%float = true -> (1 - y <=? 1 - x)%float = true.
Proof.
  intros Hx Hy Hle. rewrite leb_F2Z in Hle by assumption.
  destruct (sub_one x Hx) as [Nx Ex]. destruct (sub_one y Hy) as [Ny Ey].
  rewrite leb_F2Z, Ex, Ey by assumption.
  apply Z.leb_le. apply Z.leb_le in Hle. apply round_scaled_mono. lia.
Qed.
End Binary64.

(** ** The monad and the array helpers *)

Lemma id_eqb_eq (x y : option string) : id_eqb x y = true <-> x = y.
Proof.
  destruct x as [a|], y as [b|]; simpl; split; intro H;
    try discriminate; try reflexivity.
  - apply String.eqb_eq in H. now subst.
  - injection H as ->. apply String.eqb_refl.
Qed.

Lemma id_eqb_refl (x : option string) : id_eqb x x = true.
Proof. now apply id_eqb_eq. Qed.

Lemma id_eqb_neq (x y : option string) : id_eqb x y = false <-> x <> y.
Proof.
  split.
  - intros H E. apply id_eqb_eq in E. congruence.
  - intro H. destruct (id_eqb x y) eqn:E; [|reflexivity].
    apply id_eqb_eq in E. contradiction.
Qed.

Lemma slice_prefix {A} (l : list A) (k : Z) :
  slice l 0 k = firstn (Z.to_nat (relative_index (Z.of_nat (length l)) k)) l.
Proof.
  unfold slice. replace (relative_index (Z.of_nat (length l)) 0) with 0%Z.
  - simpl. now rewrite Z.sub_0_r.
  - unfold relative_index. simpl. lia.
Qed.

Lemma slice_length {A} (l : list A) (k : Z) :
  (0 <= k)%Z -> length (slice l 0 k) = Nat.min (Z.to_nat k) (length l).
Proof.
  intro Hk. rewrite slice_prefix, length_firstn. unfold relative_index.
  destruct (k <? 0)%Z eqn:E; lia.
Qed.

Lemma slice_incl {A} (l : list A) (k : Z) x : In x (slice l 0 k) -> In x l.
Proof.
  rewrite slice_prefix. intro H.
  rewrite <- (firstn_skipn (Z.to_nat (relative_index (Z.of_nat (length l)) k)) l).
  apply in_or_app. now left.
Qed.

Section SortFacts.
Variable A : Type.
Variable comparefn : A -> A -> number.

(** Whatever the comparator answers, sorting only rearranges. *)
Lemma sort_insert_perm x l : Permutation (x :: l) (sort_insert comparefn x l).
Proof.
  induction l as [|y l IH]; simpl.
  - apply Permutation_refl.
  - destruct (0 <? comparefn x y)%float.
    + eapply perm_trans; [apply perm_swap|]. now apply perm_skip.
    + apply Permutation_refl.
Qed.

Lemma sort_perm l : Permutation l (sort comparefn l).
Proof.
  induction l as [|x l IH]; simpl.
  - constructor.
  - eapply perm_trans; [|apply sort_insert_perm]. now apply perm_skip.
Qed.

Lemma sort_length l : length (sort comparefn l) = length l.
Proof. symmetry. apply Permutation_length, sort_perm. Qed.

Lemma sort_In x l : In x (sort comparefn l) <-> In x l.
Proof.
  split; apply Permutation_in;
    [apply Permutation_sym|]; apply sort_perm.
Qed.
End SortFacts.

Lemma map_outcome_length {A B} (f : A -> outcome B) l ys :
  map_outcome f l = Returned ys -> length ys = length l.
Proof.
  revert ys. induction l as [|x l IH]; simpl; intros ys H.
  - now injection H as <-.
  - destruct (f x); [|discriminate].
    destruct (map_outcome f l); [|discriminate].
    injection H as <-. simpl. f_equal. now apply IH.
Qed.

Lemma map_outcome_Forall2 {A B} (f : A -> outcome B) l ys :
  map_outcome f l = Returned ys <-> Forall2 (fun x y => f x = Returned y) l ys.
Proof.
  revert ys. induction l as [|x l IH]; simpl; intros ys; split; intro H.
  - injection H as <-. constructor.
  - now inversion H.
  - destruct (f x) eqn:Fx; [|discriminate].
    destruct (map_outcome f l) eqn:Fl; [|discriminate].
    injection H as <-. constructor; [assumption|]. now apply IH.
  - inversion H as [|? y ? ys' Hy Hys]; subst. rewrite Hy.
    apply IH in Hys. now rewrite Hys.
Qed.

Lemma map_outcome_In {A B} (f : A -> outcome B) l ys y :
  map_outcome f l = Returned ys -> In y ys -> exists x, In x l /\ f x = Returned y.
Proof.
  intros H. apply map_outcome_Forall2 in H.
  induction H as [|x y' l ys' Hxy _ IH]; simpl; intros Hin.
  - contradiction.
  - destruct Hin as [<-|Hin].
    + exists x. auto.
    + destruct (IH Hin) as (x' & ? & ?). exists x'. auto.
Qed.

Lemma map_outcome_total {A B} (f : A -> outcome B) l :
  Forall (fun x => exists y, f x = Returned y) l ->
  exists ys, map_outcome f l = Returned ys.
Proof.
  induction 1 as [|x l (y & Hy) _ (ys & IH)]; simpl.
  - now exists [].
  - rewrite Hy, IH. now exists (y :: ys).
Qed.

Lemma map_outcome_Returned_each {A B} (f : A -> outcome B) l ys x :
  map_outcome f l = Returned ys -> In x l -> exists y, f x = Returned y.
Proof.
  revert ys. induction l as [|x0 l IH]; simpl; intros ys H Hin; [contradiction|].
  destruct (f x0) eqn:Fx; [|discriminate].
  destruct (map_outcome f l) eqn:Fl; [|discriminate].
  destruct Hin as [<-|Hin]; eauto.
Qed.

(** The first callback that throws decides what the map throws. *)
Lemma map_outcome_Thrown {A B} (f : A -> outcome B) l e :
  map_outcome f l = Thrown e -> exists x, In x l /\ f x = Thrown e.
Proof.
  induction l as [|x l IH]; simpl; [discriminate|].
  destruct (f x) eqn:Fx.
  - destruct (map_outcome f l); [discriminate|].
    intro H. injection H as ->. destruct IH as (x' & ? & ?); [reflexivity|].
    exists x'. auto.
  - intro H. injection H as ->. exists x. auto.
Qed.

(** ** cosineSimilarity: the length check *)

Lemma cosineSimilarity_Thrown a b e :
  cosineSimilarity a b = Thrown e -> e = DimensionMismatch /\ length a <> length b.
Proof.
  unfold cosineSimilarity. destruct (length a =? length b)%nat eqn:E; simpl.
  - destruct (cosine_loop a b 0%float 0%float 0%float) as [[d na] nb].
    destruct (_ || _); discriminate.
  - intro H. injection H as <-. split; [reflexivity|].
    now apply Nat.eqb_neq.
Qed.

Lemma cosineSimilarity_mismatch a b :
  length a <> length b -> cosineSimilarity a b = Thrown DimensionMismatch.
Proof.
  intro H. unfold cosineSimilarity. apply Nat.eqb_neq in H. now rewrite H.
Qed.

Lemma cosineSimilarity_Returned a b :
  length a = length b -> exists s, cosineSimilarity a b = Returned s.
Proof.
  intro H. unfold cosineSimilarity. apply Nat.eqb_eq in H. rewrite H. simpl.
  destruct (cosine_loop a b 0%float 0%float 0%float) as [[d na] nb].
  destruct (_ || _); eauto.
Qed.

Lemma score_Thrown q d e :
  score q d = Thrown e ->
  (embedding d = None /\ e = UndefinedLength) \/
  (exists v, embedding d = Some v /\ length q <> length v /\ e = DimensionMismatch).
Proof.
  unfold score. destruct (embedding d) as [v|].
  - destruct (cosineSimilarity q v) eqn:C; [discriminate|].
    intro H. injection H as <-. apply cosineSimilarity_Thrown in C as [-> ?].
    right. exists v. auto.
  - intro H. injection H as <-. now left.
Qed.

Lemma score_sdoc q d sc : score q d = Returned sc -> sdoc sc = d.
Proof.
  unfold score. destruct (embedding d); [|discriminate].
  destruct (cosineSimilarity q l); [|discriminate].
  intro H. now injection H as <-.
Qed.

Lemma score_distance q d sc :
  score q d = Returned sc -> distance sc = (1 - similarity sc)%float.
Proof.
  unfold score. destruct (embedding d); [|discriminate].
  destruct (cosineSimilarity q l); [|discriminate].
  intro H. now injection H as <-.
Qed.

(** ** query: what is returned, and what is left alone *)

Lemma query_unfold q k s :
  query q k s =
  match this_documents s with
  | [] => (Returned empty_result, s)
  | _ :: _ =>
      match map_outcome (score q) (this_documents s) with
      | Thrown e => (Thrown e, s)
      | Returned sims =>
          (Returned (result_of (slice (sort by_similarity sims) 0 k)), s)
      end
  end.
Proof.
  unfold query, bind, get, lift, ret.
  destruct (this_documents s) as [|d l] eqn:E; simpl; [reflexivity|].
  destruct (score q d); [|reflexivity].
  destruct (map_outcome (score q) l); reflexivity.
Qed.

Lemma query_state q k s : snd (query q k s) = s.
Proof.
  rewrite query_unfold. destruct (this_documents s); [reflexivity|].
  destruct (map_outcome _ _); reflexivity.
Qed.

Lemma query_Returned q k s r s' :
  query q k s = (Returned r, s') ->
  s' = s /\
  (this_documents s = [] /\ r = empty_result \/
   exists sims, map_outcome (score q) (this_documents s) = Returned sims /\
                r = result_of (slice (sort by_similarity sims) 0 k)).
Proof.
  rewrite query_unfold. destruct (this_documents s) as [|d l] eqn:E.
  - intro H. injection H as <- <-. auto.
  - destruct (map_outcome (score q) (d :: l)) as [sims|e] eqn:Hm; [|discriminate].
    intro H. injection H as <- <-. split; [reflexivity|]. right. now exists sims.
Qed.

Lemma query_total q k s :
  Forall (fun d => exists e, embedding d = Some e /\ length e = length q)
    (this_documents s) ->
  exists r, query q k s = (Returned r, s).
Proof.
  intro H. rewrite query_unfold.
  destruct (this_documents s) as [|d l] eqn:E; [eauto|].
  destruct (map_outcome_total (score q) (d :: l)) as (ys & Hys).
  - eapply Forall_impl; [|exact H]. intros x (e & He & Hl). unfold score.
    rewrite He. destruct (cosineSimilarity_Returned q e) as (v & ->); eauto.
  - rewrite Hys. eauto.
Qed.

(** C6. [cosineSimilarity] throws the length error exactly when the two
    lengths differ, it throws nothing else, and [query] does not catch or
    repeat it: a corpus of arrays that holds one of another length than the
    query vector makes [query] throw that error. *)
Theorem cosineSimilarity_DimensionMismatch :
  (forall a b, cosineSimilarity a b = Thrown DimensionMismatch
               <-> length a <> length b) /\
  (forall a b e, cosineSimilarity a b = Thrown e -> e = DimensionMismatch) /\
  (forall q k s,
      Forall (fun d => embedding d <> None) (this_documents s) ->
      Exists (fun d => exists v, embedding d = Some v /\ length v <> length q)
        (this_documents s) ->
      query q k s = (Thrown DimensionMismatch, s)).
Proof.
  split; [|split].
  - intros a b. split.
    + intro H. now apply cosineSimilarity_Thrown in H.
    + apply cosineSimilarity_mismatch.
  - intros a b e H. now apply cosineSimilarity_Thrown in H.
  - intros q k s Hall Hex. rewrite query_unfold.
    destruct (this_documents s) as [|d l] eqn:E.
    + inversion Hex.
    + destruct (map_outcome (score q) (d :: l)) as [sims|e] eqn:Hm.
      * exfalso.
        apply Exists_exists in Hex as (x & Hx & v & Hv & Hlen).
        destruct (map_outcome_Returned_each _ _ _ _ Hm Hx) as (y & Hy).
        unfold score in Hy. rewrite Hv in Hy.
        rewrite cosineSimilarity_mismatch in Hy by congruence. discriminate.
      * apply map_outcome_Thrown in Hm as (x & Hx & Hs).
        apply score_Thrown in Hs as [[Hn _]|(v & _ & _ & ->)]; [|reflexivity].
        rewrite Forall_forall in Hall. now apply Hall in Hx.
Qed.

Lemma cosineSimilarity_DimensionMismatch_witness :
  let s := {| this_documents :=
                [ {| id := Some "C"%string; text := "c"%string;
                     embedding := Some [1; 0]%float |};
                  {| id := Some "D"%string; text := "d"%string;
                     embedding := Some [1; 0; 0]%float |} ];
              dataFile := Absent; write_failure := None |} in
  query [1; 0]%float 3 s = (Thrown DimensionMismatch, s).
Proof.
  intro s.
  apply (proj2 (proj2 cosineSimilarity_DimensionMismatch)).
  - repeat constructor; discriminate.
  - apply Exists_cons_tl, Exists_cons_hd. eexists. split; [reflexivity|].
    discriminate.
Defined.

(** C10. [query] and [getExistingIds] leave the store as it was: the records
    of [this.documents], and the snapshot file too. *)
Theorem query_getExistingIds_frame :
  forall (s : SimpleVectorDatabase) (q : list number) (k : Z),
    snd (query q k s) = s /\ snd (getExistingIds s) = s.
Proof.
  intros s q k. split; [apply query_state | reflexivity].
Qed.

Lemma slice_length_exact {A} (l : list A) (k : Z) :
  length (slice l 0 k) = Z.to_nat (relative_index (Z.of_nat (length l)) k).
Proof.
  rewrite slice_prefix, length_firstn. unfold relative_index.
  destruct (Z.ltb_spec k 0); lia.
Qed.

(** C8. On an empty corpus [query] returns the empty result whatever the
    count; for a count [k >= 0] every result it returns has at most
    [min k (corpus size)] entries in each of its three arrays; and it does
    return when every stored vector has the length of the query vector.
    (For any integer [k] the number of entries is the end index that
    [slice(0, k)] computes, which counts from the end when [k] is negative.) *)
Theorem query_length_bound :
  forall (s : SimpleVectorDatabase) (q : list number) (k : Z),
    (this_documents s = [] -> query q k s = (Returned empty_result, s)) /\
    ((0 <= k)%Z ->
     forall r s', query q k s = (Returned r, s') ->
       let bound := Nat.min (Z.to_nat k) (length (this_documents s)) in
       length (documents r) <= bound /\ length (ids r) <= bound /\
       length (distances r) <= bound) /\
    (Forall (fun d => exists e, embedding d = Some e /\ length e = length q)
       (this_documents s) ->
     exists r, query q k s = (Returned r, s)) /\
    (forall r s', query q k s = (Returned r, s') ->
       length (ids r)
       = Z.to_nat (relative_index (Z.of_nat (length (this_documents s))) k)).
Proof.
  intros s q k. split; [|split; [|split]].
  - intro E. rewrite query_unfold, E. reflexivity.
  - intros Hk r s' H. apply query_Returned in H as [_ [[E ->]|(sims & Hm & ->)]].
    + simpl. lia.
    + simpl. rewrite !length_map, slice_length, sort_length by assumption.
      rewrite (map_outcome_length _ _ _ Hm). lia.
  - apply query_total.
  - intros r s' H. apply query_Returned in H as [_ [[E ->]|(sims & Hm & ->)]].
    + rewrite E. simpl. unfold relative_index. destruct (Z.ltb_spec k 0); lia.
    + simpl. rewrite length_map, slice_length_exact, sort_length.
      now rewrite (map_outcome_length _ _ _ Hm).
Qed.

Lemma query_length_bound_witness :
  let s := {| this_documents :=
                [ {| id := Some "A"%string; text := "a"%string;
                     embedding := Some [1%float; 0%float] |} ];
              dataFile := Absent; write_failure := None |} in
  exists r, query [1%float; 0%float] 5 s = (Returned r, s) /\
            length (ids r) <= 1.
Proof.
  intro s.
  destruct (query_length_bound s [1%float; 0%float] 5) as (_ & Hb & Ht & _).
  destruct Ht as (r & Hr).
  - repeat constructor. eexists. split; reflexivity.
  - exists r. split; [exact Hr|]. apply (Hb ltac:(lia) r s Hr).
Defined.

(** ** addDocuments: replacement by id *)

Lemma filter_filter_neq x y (l : list doc) :
  x <> y ->
  filter (has_id x) (filter (fun d => negb (id_eqb (id d) y)) l)
  = filter (has_id x) l.
Proof.
  intro Hxy. induction l as [|d l IH]; simpl; [reflexivity|].
  unfold has_id at 2. destruct (id_eqb (id d) y) eqn:Ey; simpl.
  - destruct (id_eqb (id d) x) eqn:Ex; [|assumption].
    apply id_eqb_eq in Ey, Ex. congruence.
  - unfold has_id at 1. destruct (id_eqb (id d) x); [f_equal|]; assumption.
Qed.

Lemma filter_filter_same x (l : list doc) :
  filter (has_id x) (filter (fun d => negb (id_eqb (id d) x)) l) = [].
Proof.
  induction l as [|d l IH]; simpl; [reflexivity|].
  destruct (id_eqb (id d) x) eqn:Ex; simpl; [assumption|].
  unfold has_id at 1. now rewrite Ex.
Qed.

Lemma add_one_other embeddings ids i t corpus x :
  nth_error ids i <> x ->
  filter (has_id x) (add_one embeddings ids i t corpus) = filter (has_id x) corpus.
Proof.
  intro H. unfold add_one. rewrite filter_app, filter_filter_neq by congruence.
  simpl. unfold has_id at 2. simpl.
  apply id_eqb_neq in H. rewrite H. apply app_nil_r.
Qed.

Lemma add_one_same embeddings ids i t corpus :
  filter (has_id (nth_error ids i)) (add_one embeddings ids i t corpus)
  = [ {| id := nth_error ids i; text := t; embedding := nth_error embeddings i |} ].
Proof.
  unfold add_one. rewrite filter_app, filter_filter_same. simpl.
  unfold has_id. simpl. now rewrite id_eqb_refl.
Qed.

Lemma add_loop_other embeddings ids x rest : forall i corpus,
  (forall j t, nth_error rest j = Some t -> nth_error ids (i + j) <> x) ->
  filter (has_id x) (add_loop embeddings ids i rest corpus)
  = filter (has_id x) corpus.
Proof.
  induction rest as [|t rest IH]; intros i corpus H; simpl; [reflexivity|].
  rewrite IH.
  - apply add_one_other. specialize (H 0 t eq_refl). now rewrite Nat.add_0_r in H.
  - intros j t' Hj. replace (S i + j) with (i + S j) by lia. now apply (H (S j) t').
Qed.

Lemma add_loop_last embeddings ids x rest : forall j i corpus t,
  nth_error rest j = Some t ->
  nth_error ids (i + j) = x ->
  (forall j' t', j < j' -> nth_error rest j' = Some t' -> nth_error ids (i + j') <> x) ->
  filter (has_id x) (add_loop embeddings ids i rest corpus)
  = [ {| id := x; text := t; embedding := nth_error embeddings (i + j) |} ].
Proof.
  induction rest as [|t0 rest IH]; intros j i corpus t Hj Hx Hlater.
  - destruct j; discriminate.
  - destruct j as [|j]; simpl in *.
    + injection Hj as ->. rewrite Nat.add_0_r in *. rewrite add_loop_other.
      * subst x. apply add_one_same.
      * intros j t' Hj'. replace (S i + j) with (i + S j) by lia.
        apply (Hlater (S j) t'); [lia|assumption].
    + replace (i + S j) with (S i + j) in * by lia.
      apply IH; [assumption..|].
      intros j' t' Hlt Hj'. replace (S i + j') with (i + S j') by lia.
      apply (Hlater (S j') t'); [lia|assumption].
Qed.

Lemma addDocuments_documents documents embeddings ids s :
  this_documents (snd (addDocuments documents embeddings ids s))
  = add_loop embeddings ids 0 documents (this_documents s).
Proof.
  unfold addDocuments, bind, get, put, saveToFile. simpl.
  destruct (write_failure s); reflexivity.
Qed.

(** Every entry of a result comes from a record of the corpus: same id, same
    text, and as distance one minus the similarity of its vector. *)
Lemma query_entries q k s r s' :
  query q k s = (Returned r, s') ->
  exists top,
    r = result_of top /\
    Forall (fun sc => In (sdoc sc) (this_documents s) /\
                      score q (sdoc sc) = Returned sc) top.
Proof.
  intro H. apply query_Returned in H as [_ [[E ->]|(sims & Hm & ->)]].
  - exists []. split; [reflexivity|constructor].
  - eexists. split; [reflexivity|]. apply Forall_forall. intros sc Hin.
    apply slice_incl, sort_In in Hin.
    destruct (map_outcome_In _ _ _ _ Hm Hin) as (d & Hd & Hs).
    rewrite (score_sdoc _ _ _ Hs). auto.
Qed.

(** C2. When [addDocuments] is called with id [x] at position [i] (its last
    position for [x] in the call, the text there being [t]), the corpus
    afterwards holds exactly one record with id [x], the one made of [x], [t]
    and [embeddings[i]], whatever record carried [x] before; and in every
    result a query then returns, an entry with id [x] carries the text [t]
    and the distance computed from the new vector. *)
Theorem addDocuments_replaces :
  forall (s : SimpleVectorDatabase) texts vectors names i x t,
    nth_error texts i = Some t ->
    nth_error names i = Some x ->
    (forall j t', i < j -> nth_error texts j = Some t' ->
                  nth_error names j <> Some x) ->
    let s' := snd (addDocuments texts vectors names s) in
    let new := {| id := Some x; text := t; embedding := nth_error vectors i |} in
    filter (has_id (Some x)) (this_documents s') = [new] /\
    forall q k r s'' n,
      query q k s' = (Returned r, s'') ->
      nth_error (ids r) n = Some (Some x) ->
      nth_error (documents r) n = Some t /\
      exists sc, score q new = Returned sc /\
                 nth_error (distances r) n = Some (distance sc).
Proof.
  intros s texts vectors names i x t Ht Hx Hlast s' new.
  assert (Hf : filter (has_id (Some x)) (this_documents s') = [new]).
  { unfold s'. rewrite addDocuments_documents.
    rewrite (add_loop_last vectors names (Some x) texts i 0 _ t Ht Hx).
    - reflexivity.
    - intros j' t' Hlt Hj'. simpl. now apply (Hlast j' t'). }
  split; [exact Hf|].
  intros q k r s'' n Hq Hn.
  apply query_entries in Hq as (top & -> & Htop). simpl in *.
  rewrite nth_error_map in Hn.
  destruct (nth_error top n) as [sc|] eqn:En; [|discriminate].
  simpl in Hn. injection Hn as Hid.
  rewrite Forall_forall in Htop.
  destruct (Htop sc (nth_error_In _ _ En)) as [Hin Hsc].
  assert (Hnew : sdoc sc = new).
  { assert (Hin' : In (sdoc sc) (filter (has_id (Some x)) (this_documents s'))).
    { apply filter_In. split; [assumption|]. unfold has_id. now apply id_eqb_eq. }
    rewrite Hf in Hin'. destruct Hin' as [E|[]]. now symmetry. }
  rewrite !nth_error_map, En. simpl. rewrite Hnew. split; [reflexivity|].
  exists sc. split; [now rewrite <- Hnew|reflexivity].
Qed.

Lemma addDocuments_replaces_witness :
  let s := {| this_documents :=
                [ {| id := Some "1"%string; text := "apple"%string;
                     embedding := Some [1%float; 0%float] |} ];
              dataFile := Absent; write_failure := None |} in
  filter (has_id (Some "1"%string))
    (this_documents
       (snd (addDocuments ["banana"%string] [[0%float; 1%float]] ["1"%string] s)))
  = [ {| id := Some "1"%string; text := "banana"%string;
         embedding := Some [0%float; 1%float] |} ].
Proof.
  intro s.
  refine (proj1 (addDocuments_replaces s ["banana"%string] [[0%float; 1%float]]
                   ["1"%string] 0 "1"%string "banana"%string eq_refl eq_refl _)).
  intros [|[|j]] t' Hlt Hj; try lia; discriminate.
Defined.

(** ** addDocuments: ids stay unique *)

Lemma NoDup_map_filter {A B} (f : A -> B) (p : A -> bool) l :
  NoDup (map f l) -> NoDup (map f (filter p l)).
Proof.
  induction l as [|a l IH]; simpl; intro H; [constructor|].
  inversion H as [|? ? Hnot Hnd]; subst.
  destruct (p a); simpl; [|now apply IH].
  constructor; [|now apply IH].
  intro Hin. apply Hnot. apply in_map_iff in Hin as (b & Hb & Hin).
  apply filter_In in Hin as [Hin _]. apply in_map_iff. eauto.
Qed.

Lemma add_one_NoDup embeddings ids i t corpus :
  NoDup (map id corpus) -> NoDup (map id (add_one embeddings ids i t corpus)).
Proof.
  intro H. unfold add_one. rewrite map_app. simpl.
  eapply Permutation_NoDup; [apply Permutation_cons_append|].
  constructor; [|now apply NoDup_map_filter].
  intro Hin. apply in_map_iff in Hin as (d & Hd & Hin).
  apply filter_In in Hin as [_ Hne]. apply negb_true_iff, id_eqb_neq in Hne.
  contradiction.
Qed.

Lemma add_loop_NoDup embeddings ids rest : forall i corpus,
  NoDup (map id corpus) -> NoDup (map id (add_loop embeddings ids i rest corpus)).
Proof.
  induction rest as [|t rest IH]; intros i corpus H; simpl; [assumption|].
  apply IH. now apply add_one_NoDup.
Qed.

(** C9. If no two records of the corpus share an id, then after any call of
    [addDocuments], whatever its three arrays (an id may occur several times
    among [ids], the arrays may differ in length, the snapshot may fail to be
    written), no two records of the corpus share an id. *)
Theorem addDocuments_ids_unique :
  forall (s : SimpleVectorDatabase) texts vectors names,
    NoDup (map id (this_documents s)) ->
    NoDup (map id (this_documents (snd (addDocuments texts vectors names s)))).
Proof.
  intros s texts vectors names H. rewrite addDocuments_documents.
  now apply add_loop_NoDup.
Qed.

Lemma addDocuments_ids_unique_witness :
  let s := {| this_documents :=
                [ {| id := Some "1"%string; text := "apple"%string;
                     embedding := Some [1%float; 0%float] |} ];
              dataFile := Absent; write_failure := None |} in
  NoDup (map id (this_documents
     (snd (addDocuments ["kiwi"%string; "banana"%string; "cherry"%string]
             [[0%float; 1%float]; [1%float; 1%float]; [1%float; 0%float]]
             ["1"%string; "2"%string; "1"%string] s)))).
Proof.
  intro s. apply addDocuments_ids_unique. simpl.
  constructor; [intros []|constructor].
Defined.

(** ** createVectorDatabase *)

(** C5. With the selector on [upstash]: when the URL or the token is absent
    ([undefined], or the empty string, which JavaScript reads as false too)
    the factory builds the in-memory store; when both are non-empty strings
    it builds the Upstash client. *)
Theorem createVectorDatabase_upstash :
  forall url token,
    let config := {| VECTOR_DB_TYPE := upstash; UPSTASH_VECTOR_URL := url;
                     UPSTASH_VECTOR_TOKEN := token |} in
    (url = None \/ token = None ->
     createVectorDatabase config = new_SimpleVectorDatabase) /\
    (truthy url = false \/ truthy token = false ->
     createVectorDatabase config = new_SimpleVectorDatabase) /\
    (truthy url = true /\ truthy token = true ->
     createVectorDatabase config = new_UpstashDatabase_).
Proof.
  intros url token config. unfold createVectorDatabase. simpl.
  repeat split.
  - intros [-> | ->]; simpl; [reflexivity|]. now rewrite andb_false_r.
  - intros [-> | ->]; simpl; [reflexivity|]. now rewrite andb_false_r.
  - intros [-> ->]. reflexivity.
Qed.

Lemma createVectorDatabase_upstash_witness :
  createVectorDatabase {| VECTOR_DB_TYPE := upstash;
                          UPSTASH_VECTOR_URL := Some "https://example.upstash.io"%string;
                          UPSTASH_VECTOR_TOKEN := None |}
  = new_SimpleVectorDatabase /\
  createVectorDatabase {| VECTOR_DB_TYPE := upstash;
                          UPSTASH_VECTOR_URL := Some "https://example.upstash.io"%string;
                          UPSTASH_VECTOR_TOKEN := Some "token"%string |}
  = new_UpstashDatabase_.
Proof.
  split.
  - apply (createVectorDatabase_upstash _ None). now right.
  - apply (createVectorDatabase_upstash _ (Some "token"%string)). now split.
Defined.

(** ** UpstashDatabase: the retry wrapper *)

Section UpstashFacts.
Variable W : Type.
Variable number_to_string : number -> string.
Variable toISOString_now : W -> string.

Lemma after_after (s : UpstashDatabase W) w1 l1 w2 l2 :
  after (after s w1 l1) w2 l2 = after s w2 (l1 ++ l2).
Proof. unfold after. simpl. now rewrite app_assoc. Qed.

(** One turn of the loop: the operation is called once; a success leaves
    the loop, a failure is remembered and, unless this was the last turn,
    followed by a wait of [retryDelay * 2^i]. *)
Lemma retry_loop_step {T} (op : M W T) fuel i last (s : UpstashDatabase W) :
  retry_loop op (S fuel) i last s =
  match op (remote s) with
  | (Returned v, w) => (Returned v, after s w [Invoke])
  | (Thrown e, w) =>
      retry_loop op fuel (S i) (Some e)
        (after s w (Invoke ::
                    if (i <? retryAttempts s - 1)%nat
                    then [Timeout (retryDelay s * 2 ^ Z.of_nat i)] else []))
  end.
Proof.
  simpl. unfold invoke. destruct (op (remote s)) as [[v|e] w]; [reflexivity|].
  simpl. destruct (i <? retryAttempts s - 1)%nat; simpl.
  - now rewrite after_after.
  - reflexivity.
Qed.

(** The loop calls the operation at most [fuel] times and touches nothing
    of the object but the service and the record of events. *)
Lemma retry_loop_invocations {T} (op : M W T) fuel :
  forall i last (s : UpstashDatabase W) r s',
    retry_loop op fuel i last s = (r, s') ->
    exists events, s' = after s (remote s') events /\
                   invocations events <= fuel.
Proof.
  induction fuel as [|fuel IH]; intros i last s r s' H.
  - exists []. split; [|unfold invocations; simpl; lia]. simpl in H.
    assert (s' = s) as -> by (destruct last; now injection H).
    unfold after. rewrite app_nil_r. now destruct s.
  - rewrite retry_loop_step in H.
    destruct (op (remote s)) as [[v|e] w].
    + injection H as <- <-. exists [Invoke]. split; [reflexivity|].
      unfold invocations. simpl. lia.
    + apply IH in H as (events & Hs' & Hn). rewrite after_after in Hs'.
      eexists. split; [exact Hs'|].
      unfold invocations in *. simpl.
      rewrite filter_app, length_app.
      destruct (i <? retryAttempts s - 1)%nat; simpl; lia.
Qed.

(** Whatever [retryAttempts] is, the wrapper calls the operation at most
    that many times. *)
Lemma withRetry_invocations {T} (op : M W T) (s : UpstashDatabase W) r s' :
  withRetry op s = (r, s') ->
  exists events, s' = after s (remote s') events /\
                 invocations events <= retryAttempts s.
Proof. unfold withRetry. apply retry_loop_invocations. Qed.

(** An operation that throws at every call makes the loop throw. *)
Lemma retry_loop_all_fail {T} (op : M W T) :
  (forall w, exists e w', op w = (Thrown e, w')) ->
  forall fuel i last (s : UpstashDatabase W),
    exists e s', retry_loop op fuel i last s = (Thrown e, s').
Proof.
  intros Hop. induction fuel as [|fuel IH]; intros i last s.
  - simpl. destruct last; eauto.
  - rewrite retry_loop_step. destruct (Hop (remote s)) as (e & w & ->).
    apply IH.
Qed.

(** C4. With [retryAttempts = 3], [withRetry] calls the operation at most
    three times, each call starting from the service as the previous one
    left it.  The first call that returns gives the result and ends the
    loop; between a failed call number [i] (from 0) and the next call it
    waits [retryDelay * 2^i]; after a third failure it waits no more and
    throws the error of that third call. *)
Theorem withRetry_three_attempts {T} (op : M W T) (s : UpstashDatabase W) :
  retryAttempts s = 3 ->
  withRetry op s =
  match op (remote s) with
  | (Returned v, w1) => (Returned v, after s w1 [Invoke])
  | (Thrown e1, w1) =>
      match op w1 with
      | (Returned v, w2) =>
          (Returned v, after s w2 [Invoke; Timeout (retryDelay s * 2 ^ 0); Invoke])
      | (Thrown e2, w2) =>
          let events := [Invoke; Timeout (retryDelay s * 2 ^ 0);
                         Invoke; Timeout (retryDelay s * 2 ^ 1); Invoke] in
          match op w2 with
          | (Returned v, w3) => (Returned v, after s w3 events)
          | (Thrown e3, w3) => (Thrown e3, after s w3 events)
          end
      end
  end.
Proof.
  intro H3. unfold withRetry. rewrite H3, retry_loop_step, H3.
  destruct (op (remote s)) as [[v|e1] w1]; [reflexivity|].
  rewrite retry_loop_step. cbn [remote retryAttempts retryDelay after]. rewrite H3.
  change (0 <? 3 - 1)%nat with true. change (1 <? 3 - 1)%nat with true.
  cbv iota. change (Z.of_nat 0) with 0%Z. change (Z.of_nat 1) with 1%Z.
  destruct (op w1) as [[v|e2] w2].
  - now rewrite after_after.
  - rewrite after_after, retry_loop_step.
    cbn [remote retryAttempts retryDelay after]. rewrite H3.
    change (2 <? 3 - 1)%nat with false. cbv iota zeta.
    destruct (op w2) as [[v|e3] w3]; rewrite ?after_after; reflexivity.
Qed.

(** ** UpstashDatabase: getExistingIds against add and query *)

Lemma withRetry_all_fail {T} (op : M W T) (s : UpstashDatabase W) :
  (forall w, exists e w', op w = (Thrown e, w')) ->
  exists e s', withRetry op s = (Thrown e, s').
Proof. intro H. unfold withRetry. now apply retry_loop_all_fail. Qed.

(** C7. On an initialized client, a bootstrap query that throws makes
    [getExistingIds] return the empty array, after that single call and no
    wait; [getExistingIds] returns in every case; whereas against a service
    whose every call throws, [query] and [addDocuments] throw. *)
Theorem upstash_getExistingIds_soft (s : UpstashDatabase W) (idx : Index W) :
  index s = Some idx ->
  (forall e w', index_query idx bootstrap_query (remote s) = (Thrown e, w') ->
     upstash_getExistingIds number_to_string s
     = (Returned [], after s w' [Invoke])) /\
  (exists l s', upstash_getExistingIds number_to_string s = (Returned l, s')) /\
  ((forall p w, exists e w', index_query idx p w = (Thrown e, w')) ->
   forall q k, exists e s',
     upstash_query number_to_string q k s = (Thrown e, s')) /\
  ((forall items w, exists e w', index_upsert idx items w = (Thrown e, w')) ->
   forall texts vectors names, exists e s',
     upstash_addDocuments toISOString_now texts vectors names s = (Thrown e, s')).
Proof.
  intro Hidx. repeat split.
  - intros e w' H. unfold upstash_getExistingIds, invoke. now rewrite Hidx, H.
  - unfold upstash_getExistingIds, invoke. rewrite Hidx.
    destruct (index_query idx bootstrap_query (remote s)) as [[rs|e] w']; eauto.
  - intros H q k. unfold upstash_query. rewrite Hidx.
    destruct (withRetry_all_fail
                (index_query idx {| vector := q; topK := k; includeMetadata := true |})
                s (H _)) as (e & s' & ->).
    eauto.
  - intros H texts vectors names. unfold upstash_addDocuments. rewrite Hidx.
    apply withRetry_all_fail, H.
Qed.
End UpstashFacts.

Lemma withRetry_three_attempts_witness :
  let flaky : M nat string := fun n =>
    if (n <? 2)%nat then (Thrown (Error "timeout"), S n)
    else (Returned "ok"%string, S n) in
  let s := new_UpstashDatabase 0 in
  withRetry flaky s
  = (Returned "ok"%string,
     after s 3 [Invoke; Timeout 1000; Invoke; Timeout 2000; Invoke]).
Proof.
  intros flaky s.
  exact (withRetry_three_attempts nat flaky s eq_refl).
Defined.

Lemma upstash_getExistingIds_soft_witness :
  let down : Index unit :=
    {| index_query := fun _ w => (Thrown (Error "ECONNREFUSED"), w);
       index_upsert := fun _ w => (Thrown (Error "ECONNREFUSED"), w) |} in
  let s := {| index := Some down; retryAttempts := 3; retryDelay := 1000;
              remote := tt; log := [] |} in
  upstash_getExistingIds (fun _ => EmptyString) s
  = (Returned [], after s tt [Invoke]).
Proof.
  intros down s.
  exact (proj1 (upstash_getExistingIds_soft unit (fun _ => EmptyString)
                  (fun _ => EmptyString) s down eq_refl)
           (Error "ECONNREFUSED") tt eq_refl).
Defined.

(** ** Sorting by a key

    When the sign of [comparefn] is the order of an integer key on the
    elements at hand, the sort puts them in non-increasing key order and
    keeps elements of equal key in their original order. *)
Section SortByKey.
Variable A : Type.
Variable comparefn : A -> A -> number.
Variable key : A -> Z.
Variable ok : A -> Prop.
Hypothesis comparefn_key :
  forall x y, ok x -> ok y -> (0 <? comparefn x y)%float = (key x <? key y)%Z.

Lemma sort_Forall (P : A -> Prop) l : Forall P l -> Forall P (sort comparefn l).
Proof.
  intro H. apply Forall_forall. intros x Hx.
  apply sort_In in Hx. rewrite Forall_forall in H. auto.
Qed.

Lemma sort_insert_sorted x l :
  ok x -> Forall ok l ->
  StronglySorted (fun a b => (key b <= key a)%Z) l ->
  StronglySorted (fun a b => (key b <= key a)%Z) (sort_insert comparefn x l).
Proof.
  intros Hx Hl Hs. induction Hs as [|y l Hs IH Hy]; simpl.
  - repeat constructor.
  - inversion Hl as [|? ? Hoy Hol]; subst.
    rewrite comparefn_key by assumption.
    destruct (Z.ltb_spec (key x) (key y)) as [Hlt|Hge].
    + constructor; [now apply IH|].
      eapply Permutation_Forall; [apply sort_insert_perm|].
      constructor; [lia|assumption].
    + constructor; [now constructor|].
      constructor; [assumption|].
      eapply Forall_impl; [|exact Hy]. simpl. intros z Hz. lia.
Qed.

Lemma sort_sorted l :
  Forall ok l ->
  StronglySorted (fun a b => (key b <= key a)%Z) (sort comparefn l).
Proof.
  induction 1 as [|x l Hx Hl IH]; simpl.
  - constructor.
  - apply sort_insert_sorted; [assumption| |assumption].
    now apply sort_Forall.
Qed.

Lemma sort_insert_stable v x l :
  ok x -> Forall ok l ->
  filter (fun a => (key a =? v)%Z) (sort_insert comparefn x l)
  = filter (fun a => (key a =? v)%Z) (x :: l).
Proof.
  intros Hx Hl. induction Hl as [|y l Hy Hl IH]; [reflexivity|].
  simpl sort_insert. rewrite comparefn_key by assumption.
  destruct (Z.ltb_spec (key x) (key y)) as [Hlt|Hge]; [|reflexivity].
  simpl. simpl in IH. rewrite IH.
  destruct (Z.eqb_spec (key x) v), (Z.eqb_spec (key y) v); try reflexivity. lia.
Qed.

Lemma sort_stable v l :
  Forall ok l ->
  filter (fun a => (key a =? v)%Z) (sort comparefn l)
  = filter (fun a => (key a =? v)%Z) l.
Proof.
  induction 1 as [|x l Hx Hl IH]; [reflexivity|].
  simpl sort. rewrite sort_insert_stable by (auto using sort_Forall).
  simpl. now rewrite IH.
Qed.
End SortByKey.

(** Two arrangements in non-increasing key order that keep, for every key,
    the same elements in the same order, are the same list: a stable sort by a
    key has one possible result, so [sort] computes what any conforming
    stable sort computes. *)
Lemma stable_sort_unique {A} (key : A -> Z) (l1 : list A) : forall l2,
  StronglySorted (fun a b => (key b <= key a)%Z) l1 ->
  StronglySorted (fun a b => (key b <= key a)%Z) l2 ->
  (forall v, filter (fun a => (key a =? v)%Z) l1
             = filter (fun a => (key a =? v)%Z) l2) ->
  l1 = l2.
Proof.
  induction l1 as [|x t1 IH]; intros l2 S1 S2 Hf.
  - destruct l2 as [|y t2]; [reflexivity|].
    specialize (Hf (key y)). simpl in Hf. rewrite Z.eqb_refl in Hf. discriminate.
  - destruct l2 as [|y t2].
    { specialize (Hf (key x)). simpl in Hf. rewrite Z.eqb_refl in Hf. discriminate. }
    inversion S1 as [|? ? S1' F1]; inversion S2 as [|? ? S2' F2]; subst.
    assert (Hxy : (key x <= key y)%Z).
    { pose proof (Hf (key x)) as H. simpl in H. rewrite Z.eqb_refl in H.
      destruct (Z.eqb_spec (key y) (key x)) as [E|NE]; [lia|].
      assert (Hin : In x (filter (fun a => (key a =? key x)%Z) t2))
        by (rewrite <- H; now left).
      apply filter_In in Hin as [Hin _]. rewrite Forall_forall in F2. auto. }
    assert (Hyx : (key y <= key x)%Z).
    { pose proof (Hf (key y)) as H. simpl in H. rewrite Z.eqb_refl in H.
      destruct (Z.eqb_spec (key x) (key y)) as [E|NE]; [lia|].
      assert (Hin : In y (filter (fun a => (key a =? key y)%Z) t1))
        by (rewrite H; now left).
      apply filter_In in Hin as [Hin _]. rewrite Forall_forall in F1. auto. }
    assert (E : key x = key y) by lia.
    assert (x = y).
    { pose proof (Hf (key x)) as H. simpl in H. rewrite <- E, Z.eqb_refl in H.
      now injection H. }
    subst y. f_equal. apply IH; try assumption.
    intro v. specialize (Hf v). simpl in Hf.
    destruct (key x =? v)%Z; [now injection Hf|assumption].
Qed.

Lemma StronglySorted_firstn {A} (R : A -> A -> Prop) n l :
  StronglySorted R l -> StronglySorted R (firstn n l).
Proof.
  intro H. revert n. induction H as [|x l Hs IH Hx]; intros [|n]; simpl;
    try constructor.
  - apply IH.
  - rewrite Forall_forall in *. intros y Hy. apply Hx.
    rewrite <- (firstn_skipn n l). apply in_or_app. now left.
Qed.

Lemma StronglySorted_map {A B} (f : A -> B) (R : B -> B -> Prop) l :
  StronglySorted (fun a b => R (f a) (f b)) l -> StronglySorted R (map f l).
Proof.
  induction 1 as [|x l Hs IH Hx]; simpl; constructor; [assumption|].
  now apply Forall_map.
Qed.

Lemma StronglySorted_weaken {A} (P : A -> Prop) (R1 R2 : A -> A -> Prop) l :
  (forall a b, P a -> P b -> R1 a b -> R2 a b) ->
  Forall P l -> StronglySorted R1 l -> StronglySorted R2 l.
Proof.
  intros HR HP Hs. induction Hs as [|x l Hs IH Hx]; [constructor|].
  inversion HP as [|? ? Px Pl]; subst. constructor; [now apply IH|].
  rewrite Forall_forall in *. intros y Hy. auto.
Qed.

Lemma filter_firstn_prefix {A} (p : A -> bool) n l :
  exists rest, filter p l = filter p (firstn n l) ++ rest.
Proof.
  exists (filter p (skipn n l)).
  now rewrite <- filter_app, firstn_skipn.
Qed.

Lemma filter_none {A} (p : A -> bool) l :
  (forall x, In x l -> p x = false) -> filter p l = [].
Proof.
  induction l as [|x l IH]; intro H; simpl; [reflexivity|].
  rewrite (H x) by now left. apply IH. intros y Hy. apply H. now right.
Qed.

Lemma eqb_nan_r x v : PrimFloat.is_nan v = true -> (x =? v)%float = false.
Proof.
  intro H. rewrite is_nan_Prim2SF in H. rewrite FloatAxioms.eqb_spec.
  unfold SFeqb. destruct (Prim2SF v); try discriminate.
  now destruct (Prim2SF x).
Qed.

(** ** query: the ranking *)

(** On similarities that are numbers, the comparator of [query] orders by
    similarity. *)
Lemma by_similarity_key (a b : scored) :
  PrimFloat.is_nan (similarity a) = false ->
  PrimFloat.is_nan (similarity b) = false ->
  (0 <? by_similarity a b)%float
  = (F2Z (similarity a) <? F2Z (similarity b))%Z.
Proof.
  intros Ha Hb. unfold by_similarity.
  rewrite sub_sign by assumption. now apply ltb_F2Z.
Qed.

(** C1 (amended). When every stored vector has the length of the query
    vector and no similarity is NaN, [query q k] with [k >= 0] returns; its
    result is built from at most [k] scored records [top]; each of them is a
    record of the corpus with its similarity to [q] and the distance
    [1 - similarity]; [top] is in non-increasing similarity order, the
    returned distances are in non-decreasing order; and for every score, the
    returned records of that score are the first records of that score of
    the corpus, in corpus order. *)
Theorem query_ranked :
  forall (s : SimpleVectorDatabase) (q : list number) (k : Z),
    Forall (fun d => exists e, embedding d = Some e /\ length e = length q)
      (this_documents s) ->
    (forall d sc, In d (this_documents s) -> score q d = Returned sc ->
                  PrimFloat.is_nan (similarity sc) = false) ->
    (0 <= k)%Z ->
    exists sims top,
      map_outcome (score q) (this_documents s) = Returned sims /\
      query q k s = (Returned (result_of top), s) /\
      length top <= Z.to_nat k /\
      Forall (fun sc => In (sdoc sc) (this_documents s) /\
                        score q (sdoc sc) = Returned sc /\
                        distance sc = (1 - similarity sc)%float) top /\
      StronglySorted (fun a b => (similarity b <=? similarity a)%float = true) top /\
      StronglySorted (fun x y => (x <=? y)%float = true) (distances (result_of top)) /\
      forall v, exists rest,
        filter (fun sc => (similarity sc =? v)%float) sims
        = filter (fun sc => (similarity sc =? v)%float) top ++ rest.
Proof.
  intros s q k Hlen Hnan Hk.
  destruct (map_outcome_total (score q) (this_documents s)) as (sims & Hsims).
  { eapply Forall_impl; [|exact Hlen]. intros d (e & He & Hl). unfold score.
    rewrite He. destruct (cosineSimilarity_Returned q e) as (v & ->); eauto. }
  set (ok := fun sc : scored => PrimFloat.is_nan (similarity sc) = false).
  set (key := fun sc : scored => F2Z (similarity sc)).
  assert (Hok : Forall ok sims).
  { apply Forall_forall. intros sc Hin.
    destruct (map_outcome_In _ _ _ _ Hsims Hin) as (d & Hd & Hs).
    exact (Hnan d sc Hd Hs). }
  assert (Hcmp : forall x y, ok x -> ok y ->
             (0 <? by_similarity x y)%float = (key x <? key y)%Z).
  { intros x y. apply by_similarity_key. }
  set (top := slice (sort by_similarity sims) 0 k).
  assert (Htop : forall sc, In sc top -> In sc sims).
  { intros sc Hin. now apply slice_incl, sort_In in Hin. }
  assert (Hoktop : Forall ok top).
  { apply Forall_forall. intros sc Hin. rewrite Forall_forall in Hok. auto. }
  assert (Hsorted : StronglySorted (fun a b => (key b <= key a)%Z) top).
  { unfold top. rewrite slice_prefix. apply StronglySorted_firstn.
    now apply (sort_sorted _ by_similarity key ok). }
  exists sims, top. split; [exact Hsims|]. split; [|split; [|split; [|split; [|split]]]].
  - rewrite query_unfold. destruct (this_documents s) as [|d l] eqn:E.
    + simpl in Hsims. injection Hsims as <-.
      destruct top as [|x t]; [reflexivity|].
      destruct (Htop x (or_introl eq_refl)).
    + now rewrite Hsims.
  - unfold top. rewrite slice_length by assumption. lia.
  - apply Forall_forall. intros sc Hin. apply Htop in Hin.
    destruct (map_outcome_In _ _ _ _ Hsims Hin) as (d & Hd & Hs).
    rewrite (score_sdoc _ _ _ Hs). split; [assumption|]. split; [assumption|].
    exact (score_distance _ _ _ Hs).
  - eapply (StronglySorted_weaken ok); [|exact Hoktop|exact Hsorted].
    intros a b Ha Hb H. rewrite leb_F2Z by assumption. now apply Z.leb_le.
  - simpl. apply StronglySorted_map.
    apply (StronglySorted_weaken
             (fun sc => ok sc /\ distance sc = (1 - similarity sc)%float)
             (fun a b => (key b <= key a)%Z)); [| |exact Hsorted].
    + intros a b [Ha Da] [Hb Db] H. rewrite Da, Db.
      apply distance_antitone; [assumption..|].
      rewrite leb_F2Z by assumption. now apply Z.leb_le.
    + apply Forall_forall. intros sc Hin. split.
      * rewrite Forall_forall in Hoktop. auto.
      * apply Htop in Hin.
        destruct (map_outcome_In _ _ _ _ Hsims Hin) as (d & Hd & Hs).
        exact (score_distance _ _ _ Hs).
  - intro v. destruct (PrimFloat.is_nan v) eqn:Nv.
    + exists []. rewrite !filter_none; auto using eqb_nan_r.
    + assert (Hext : forall l, Forall ok l ->
                filter (fun sc => (similarity sc =? v)%float) l
                = filter (fun a => (key a =? F2Z v)%Z) l).
      { intros l Hl. apply filter_ext_in. intros sc Hin.
        rewrite Forall_forall in Hl. apply eqb_F2Z; [now apply Hl|assumption]. }
      rewrite !Hext by assumption.
      rewrite <- (sort_stable _ by_similarity key ok Hcmp (F2Z v) sims Hok).
      unfold top. rewrite slice_prefix. apply filter_firstn_prefix.
Qed.

(** The ranking example of the specification: corpus A, B, C, query [1,0],
    two results asked for. *)
Lemma query_ranked_witness :
  let s := {| this_documents :=
                [ {| id := Some "A"%string; text := "a"%string;
                     embedding := Some [1; 0]%float |};
                  {| id := Some "B"%string; text := "b"%string;
                     embedding := Some [0; 1]%float |};
                  {| id := Some "C"%string; text := "c"%string;
                     embedding := Some [0x1.ccccccccccccdp-1; 0x1.999999999999ap-4]%float |} ];
              dataFile := Absent; write_failure := None |} in
  exists top,
    query [1; 0]%float 2 s = (Returned (result_of top), s) /\
    ids (result_of top) = [Some "A"%string; Some "C"%string] /\
    StronglySorted (fun x y => (x <=? y)%float = true) (distances (result_of top)).
Proof.
  intro s.
  destruct (query_ranked s [1; 0]%float 2) as (sims & top & _ & Hq & _ & _ & _ & Hd & _).
  - repeat constructor; eexists; split; reflexivity.
  - intros d sc [<-|[<-|[<-|[]]]] H; vm_compute in H; injection H as <-;
      reflexivity.
  - lia.
  - exists top. split; [exact Hq|]. split; [|exact Hd].
    assert (E : ids (result_of top)
                = match fst (query [1; 0]%float 2 s) with
                  | Returned r => ids r
                  | Thrown _ => []
                  end) by now rewrite Hq.
    rewrite E. vm_compute. reflexivity.
Defined.

(** C1, as stated, fails.  With an infinite component in a stored vector
    one similarity is NaN; [query] then returns the distances [1; NaN; 0],
    which are not in non-decreasing order, and ranks the exact match last.
    And with a stored vector of another length than the query vector,
    [query] returns no entries at all: it throws. *)
Lemma query_ranked_counterexample :
  let db docs := {| this_documents := docs; dataFile := Absent; write_failure := None |} in
  let A := {| id := Some "A"%string; text := "a"%string;
              embedding := Some [infinity; 0]%float |} in
  let B := {| id := Some "B"%string; text := "b"%string;
              embedding := Some [0; 1]%float |} in
  let C := {| id := Some "C"%string; text := "c"%string;
              embedding := Some [1; 0]%float |} in
  let D := {| id := Some "D"%string; text := "d"%string;
              embedding := Some [1; 0; 0]%float |} in
  (query [1; 0]%float 3 (db [B; A; C])
   = (Returned {| documents := ["b"; "a"; "c"]%string;
                  ids := [Some "B"; Some "A"; Some "C"]%string;
                  distances := [1; nan; 0]%float |}, db [B; A; C]) /\
   (1 <=? nan)%float = false /\ (nan <=? 0)%float = false /\
   (1 <=? 0)%float = false) /\
  query [1; 0]%float 3 (db [C; D]) = (Thrown DimensionMismatch, db [C; D]).
Proof.
  intros db A B C D. repeat split; vm_compute; reflexivity.
Qed.

(** ** cosineSimilarity: the value *)

Lemma cosine_loop_sums a : forall b d na nb,
  length a = length b ->
  cosine_loop a b d na nb = (dot_from d a b, sumsq_from na a, sumsq_from nb b).
Proof.
  induction a as [|x a IH]; intros [|y b] d na nb H; try discriminate.
  - reflexivity.
  - simpl. apply IH. now injection H.
Qed.

Lemma cosineSimilarity_value a b :
  length a = length b ->
  cosineSimilarity a b =
  if ((norm a =? 0) || (norm b =? 0))%float then Returned 0%float
  else Returned (dot a b / (norm a * norm b))%float.
Proof.
  intro H. unfold cosineSimilarity. rewrite cosine_loop_sums by assumption.
  apply Nat.eqb_eq in H. now rewrite H.
Qed.

(** A number equal to zero is one of the two zeros. *)
Lemma eqb_zero_inv x :
  (x =? 0)%float = true -> exists s, Prim2SF x = S754_zero s.
Proof.
  rewrite FloatAxioms.eqb_spec. change (Prim2SF 0) with (S754_zero false).
  unfold SFeqb. destruct (Prim2SF x) as [s|s| |s m e]; simpl.
  - eauto.
  - destruct s; discriminate.
  - discriminate.
  - destruct s; discriminate.
Qed.

Lemma square_zero x : (x =? 0)%float = true -> (x * x)%float = 0%float.
Proof.
  intro H. destruct (eqb_zero_inv x H) as (s & Hs).
  apply Prim2SF_inj. rewrite mul_spec, Hs. now destruct s.
Qed.

(** The squared norm of a vector of zeros is [+0], whatever their signs. *)
Lemma sumsq_zero a :
  Forall (fun x => (x =? 0)%float = true) a -> sumsq_from 0%float a = 0%float.
Proof.
  induction 1 as [|x a Hx _ IH]; simpl; [reflexivity|].
  rewrite (square_zero x Hx). exact IH.
Qed.

Lemma norm_zero a :
  Forall (fun x => (x =? 0)%float = true) a -> norm a = 0%float.
Proof. intro H. unfold norm. now rewrite sumsq_zero. Qed.

(** C3 (amended). On vectors of equal length [cosineSimilarity] returns,
    computed in binary64 arithmetic: the quotient of the dot product by the
    product of the two norms when neither computed norm equals zero, and
    exactly [+0] when one of them does, which is the case whenever one of
    the vectors holds only zeros.  (No bound on the quotient is claimed.) *)
Theorem cosineSimilarity_contract :
  forall a b : list number,
    length a = length b ->
    ((norm a =? 0)%float = false -> (norm b =? 0)%float = false ->
     cosineSimilarity a b = Returned (dot a b / (norm a * norm b))%float) /\
    ((norm a =? 0)%float = true \/ (norm b =? 0)%float = true ->
     cosineSimilarity a b = Returned 0%float) /\
    (Forall (fun x => (x =? 0)%float = true) a \/
     Forall (fun x => (x =? 0)%float = true) b ->
     cosineSimilarity a b = Returned 0%float).
Proof.
  intros a b H. rewrite (cosineSimilarity_value a b H). repeat split.
  - intros -> ->. reflexivity.
  - intros [-> | ->]; [reflexivity|]. now rewrite orb_true_r.
  - intros [Ha|Hb].
    + now rewrite (norm_zero a Ha).
    + rewrite (norm_zero b Hb). change (0 =? 0)%float with true.
      now rewrite orb_true_r.
Qed.

Lemma cosineSimilarity_contract_witness :
  cosineSimilarity [3; 4]%float [4; 3]%float = Returned 0x1.eb851eb851eb8p-1%float /\
  cosineSimilarity [0; -0]%float [4; 3]%float = Returned 0%float.
Proof.
  split.
  - exact (proj1 (cosineSimilarity_contract [3; 4]%float [4; 3]%float eq_refl)
             eq_refl eq_refl).
  - apply (cosineSimilarity_contract [0; -0]%float [4; 3]%float eq_refl).
    left. repeat constructor.
Defined.

(** C3, as stated, fails on the bound: rounding takes the similarity of
    [1,1,1] with itself above 1, that of [1,-1,1] with its opposite below
    -1, and on large components the sums overflow and the result is NaN.
    Also, a vector whose squares underflow has a computed norm of zero, so
    [0] is returned for two equal non-zero vectors. *)
Lemma cosineSimilarity_counterexample :
  cosineSimilarity [1; 1; 1]%float [1; 1; 1]%float
    = Returned 0x1.0000000000001p+0%float /\
  (0x1.0000000000001p+0 <=? 1)%float = false /\
  cosineSimilarity [1; -1; 1]%float [-1; 1; -1]%float
    = Returned (-0x1.0000000000001p+0)%float /\
  (-1 <=? -0x1.0000000000001p+0)%float = false /\
  cosineSimilarity [0x1p+600]%float [0x1p+600]%float = Returned nan /\
  cosineSimilarity [0x1p-600]%float [0x1p-600]%float = Returned 0%float.
Proof. repeat split; vm_compute; reflexivity. Qed.

(** * Further properties of the code *)

(** ** addDocuments: what a call does to the corpus as a whole *)

Lemma id_eqb_sym x y : id_eqb x y = id_eqb y x.
Proof.
  destruct (id_eqb x y) eqn:E; symmetry.
  - apply id_eqb_eq in E. subst. apply id_eqb_refl.
  - apply id_eqb_neq. apply id_eqb_neq in E. congruence.
Qed.

Lemma filter_all {A} (p : A -> bool) l :
  (forall x, In x l -> p x = true) -> filter p l = l.
Proof.
  induction l as [|x l IH]; intro H; simpl; [reflexivity|].
  rewrite (H x) by now left. f_equal. apply IH. intros y Hy. apply H. now right.
Qed.

Lemma filter_twice {A} (f g : A -> bool) l :
  filter f (filter g l) = filter (fun x => g x && f x) l.
Proof.
  induction l as [|x l IH]; simpl; [reflexivity|].
  destruct (g x); simpl; [destruct (f x)|]; now rewrite IH.
Qed.

(** The loop splits the corpus: the records whose id the call does not carry
    stay, in their order, and behind them comes what the same call makes of
    an empty corpus. *)
Lemma add_loop_decompose embeddings ids rest : forall i corpus,
  add_loop embeddings ids i rest corpus
  = filter (fun d => negb (id_in (batch_ids ids i rest) (id d))) corpus
    ++ add_loop embeddings ids i rest [].
Proof.
  induction rest as [|t rest IH]; intros i corpus.
  - simpl. rewrite app_nil_r. symmetry. now apply filter_all.
  - simpl add_loop. rewrite IH. rewrite (IH (S i) (add_one embeddings ids i t [])).
    unfold add_one at 1. rewrite filter_app, filter_twice, <- app_assoc.
    f_equal.
    apply filter_ext. intro d. simpl. unfold id_in.
    now rewrite negb_orb, id_eqb_sym.
Qed.

Lemma add_one_ids embeddings ids i t corpus d :
  In d (add_one embeddings ids i t corpus) ->
  id d = nth_error ids i \/ In d corpus.
Proof.
  unfold add_one. intro H. apply in_app_or in H as [H|[<-|[]]].
  - apply filter_In in H. tauto.
  - now left.
Qed.

Lemma add_loop_ids embeddings ids rest : forall i corpus d,
  In d (add_loop embeddings ids i rest corpus) ->
  id_in (batch_ids ids i rest) (id d) = true \/ In d corpus.
Proof.
  induction rest as [|t rest IH]; intros i corpus d H; simpl in *; [now right|].
  apply IH in H as [H|H].
  - left. unfold id_in in *. simpl. rewrite H. apply orb_true_r.
  - apply add_one_ids in H as [H|H]; [|now right].
    left. unfold id_in. simpl. rewrite H, id_eqb_refl. reflexivity.
Qed.

Lemma add_loop_fresh_ids embeddings ids rest i :
  filter (fun d => negb (id_in (batch_ids ids i rest) (id d)))
    (add_loop embeddings ids i rest []) = [].
Proof.
  apply filter_none. intros d H.
  apply add_loop_ids in H as [H|[]]. now rewrite H.
Qed.

(** X1. A call of [addDocuments] leaves alone the records whose id is not
    among the ids it handles: they are all still there afterwards, unchanged
    and in the same order, and no record with such an id is added. *)
Theorem addDocuments_frame :
  forall (s : SimpleVectorDatabase) texts vectors names,
    let untouched d := negb (id_in (batch_ids names 0 texts) (id d)) in
    filter untouched (this_documents (snd (addDocuments texts vectors names s)))
    = filter untouched (this_documents s).
Proof.
  intros s texts vectors names untouched. rewrite addDocuments_documents.
  rewrite add_loop_decompose, filter_app. unfold untouched.
  rewrite add_loop_fresh_ids, app_nil_r, filter_twice.
  apply filter_ext. intro d. now rewrite andb_diag.
Qed.

(** X2. [addDocuments] is idempotent on the corpus: a second call with the
    same three arrays leaves the records as the first call left them. *)
Theorem addDocuments_idempotent :
  forall (s : SimpleVectorDatabase) texts vectors names,
    this_documents
      (snd (addDocuments texts vectors names
              (snd (addDocuments texts vectors names s))))
    = this_documents (snd (addDocuments texts vectors names s)).
Proof.
  intros s texts vectors names. rewrite !addDocuments_documents.
  rewrite (add_loop_decompose vectors names texts 0
             (add_loop vectors names 0 texts (this_documents s))).
  rewrite (add_loop_decompose vectors names texts 0 (this_documents s)) at 1.
  rewrite filter_app, add_loop_fresh_ids, app_nil_r, filter_twice.
  rewrite (add_loop_decompose vectors names texts 0 (this_documents s)).
  f_equal. apply filter_ext. intro d. now rewrite andb_diag.
Qed.

Lemma add_loop_keeps embeddings ids rest : forall i corpus x,
  id_in (batch_ids ids i rest) x = false ->
  In x (map id corpus) ->
  In x (map id (add_loop embeddings ids i rest corpus)).
Proof.
  intros i corpus x Hx Hin. apply in_map_iff in Hin as (d & <- & Hd).
  apply in_map. rewrite add_loop_decompose. apply in_or_app. left.
  apply filter_In. split; [assumption|]. now rewrite Hx.
Qed.

Lemma id_in_cons a l x : id_in (a :: l) x = id_eqb x a || id_in l x.
Proof. reflexivity. Qed.

Lemma add_loop_adds embeddings ids rest : forall i corpus x,
  id_in (batch_ids ids i rest) x = true ->
  In x (map id (add_loop embeddings ids i rest corpus)).
Proof.
  induction rest as [|t rest IH]; intros i corpus x H; [discriminate|].
  cbn [batch_ids add_loop] in *. rewrite id_in_cons in H.
  destruct (id_in (batch_ids ids (S i) rest) x) eqn:E.
  - now apply IH.
  - apply add_loop_keeps; [assumption|].
    rewrite orb_false_r in H.
    apply id_eqb_eq in H. subst x. unfold add_one. rewrite map_app.
    apply in_or_app. right. now left.
Qed.

(** X3. After [addDocuments], [getExistingIds] lists exactly the ids the
    corpus had before together with the ids the call handled (one per text,
    [undefined] where [ids] is shorter than [documents]). *)
Theorem addDocuments_getExistingIds :
  forall (s : SimpleVectorDatabase) texts vectors names,
    let s1 := snd (addDocuments texts vectors names s) in
    exists l,
      getExistingIds s1 = (Returned l, s1) /\
      forall x,
        In x l <->
        id_in (batch_ids names 0 texts) x = true \/
        In x (map id (this_documents s)).
Proof.
  intros s texts vectors names s1. eexists. split; [reflexivity|].
  intro x. unfold s1. rewrite addDocuments_documents. split.
  - intro Hin. apply in_map_iff in Hin as (d & <- & Hd).
    apply add_loop_ids in Hd as [Hd|Hd]; [now left|]. right. now apply in_map.
  - intros [Hb|Ho].
    + now apply add_loop_adds.
    + destruct (id_in (batch_ids names 0 texts) x) eqn:E.
      * now apply add_loop_adds.
      * now apply add_loop_keeps.
Qed.

Lemma add_loop_append embeddings ids rest : forall i corpus,
  NoDup (batch_ids ids i rest) ->
  (forall d, In d corpus -> id_in (batch_ids ids i rest) (id d) = false) ->
  add_loop embeddings ids i rest corpus
  = corpus ++ batch_records embeddings ids i rest.
Proof.
  induction rest as [|t rest IH]; intros i corpus Hnd Hfresh.
  - simpl. now rewrite app_nil_r.
  - cbn [add_loop batch_records batch_ids] in *.
    inversion Hnd as [|? ? Hnot Hnd']; subst.
    assert (Hone : add_one embeddings ids i t corpus
                   = corpus ++ [ {| id := nth_error ids i; text := t;
                                    embedding := nth_error embeddings i |} ]).
    { unfold add_one. f_equal. apply filter_all. intros d Hd.
      specialize (Hfresh d Hd). rewrite id_in_cons in Hfresh.
      apply orb_false_iff in Hfresh as [Hfresh _]. now rewrite Hfresh. }
    rewrite Hone, IH, <- app_assoc; [reflexivity|assumption|].
    intros d Hd. apply in_app_or in Hd as [Hd|[<-|[]]].
    + specialize (Hfresh d Hd). rewrite id_in_cons in Hfresh.
      now apply orb_false_iff in Hfresh.
    + simpl. destruct (id_in (batch_ids ids (S i) rest) (nth_error ids i)) eqn:E;
        [|reflexivity].
      exfalso. apply Hnot. unfold id_in in E. apply existsb_exists in E as (y & Hy & Ey).
      apply id_eqb_eq in Ey. now subst.
Qed.

(** X4. When the ids the call handles are pairwise different and none of
    them is in the corpus, [addDocuments] appends: the corpus afterwards is
    the corpus before followed by one record per text, in the order of the
    texts. *)
Theorem addDocuments_appends :
  forall (s : SimpleVectorDatabase) texts vectors names,
    NoDup (batch_ids names 0 texts) ->
    (forall d, In d (this_documents s) ->
               id_in (batch_ids names 0 texts) (id d) = false) ->
    this_documents (snd (addDocuments texts vectors names s))
    = this_documents s ++ batch_records vectors names 0 texts.
Proof.
  intros s texts vectors names Hnd Hfresh. rewrite addDocuments_documents.
  now apply add_loop_append.
Qed.

Lemma addDocuments_appends_witness :
  let s := {| this_documents :=
                [ {| id := Some "1"%string; text := "apple"%string;
                     embedding := Some [1; 0]%float |} ];
              dataFile := Absent; write_failure := None |} in
  this_documents
    (snd (addDocuments ["banana"; "cherry"]%string [[0; 1]; [1; 1]]%float
            ["2"; "3"]%string s))
  = [ {| id := Some "1"%string; text := "apple"%string;
         embedding := Some [1; 0]%float |};
      {| id := Some "2"%string; text := "banana"%string;
         embedding := Some [0; 1]%float |};
      {| id := Some "3"%string; text := "cherry"%string;
         embedding := Some [1; 1]%float |} ].
Proof.
  intro s.
  apply (addDocuments_appends s ["banana"; "cherry"]%string [[0; 1]; [1; 1]]%float
           ["2"; "3"]%string).
  - repeat constructor; simpl; intuition discriminate.
  - intros d [<-|[]]. reflexivity.
Defined.


(** ** query: which records are returned *)

Lemma StronglySorted_app_cross {A} (R : A -> A -> Prop) l1 l2 :
  StronglySorted R (l1 ++ l2) ->
  forall a b, In a l1 -> In b l2 -> R a b.
Proof.
  induction l1 as [|x l1 IH]; simpl; intros H a b Ha Hb; [contradiction|].
  inversion H as [|? ? Hs Hx]; subst. destruct Ha as [<-|Ha].
  - rewrite Forall_forall in Hx. apply Hx. apply in_or_app. now right.
  - now apply IH.
Qed.

Lemma slice_all {A} (l : list A) (k : Z) :
  (Z.of_nat (length l) <= k)%Z -> slice l 0 k = l.
Proof.
  intro H. rewrite slice_prefix. unfold relative_index.
  destruct (Z.ltb_spec k 0); [lia|].
  rewrite Z.min_r, Nat2Z.id by assumption. apply firstn_all.
Qed.

Lemma map_outcome_sdoc q l sims :
  map_outcome (score q) l = Returned sims -> map sdoc sims = l.
Proof.
  intro H. apply map_outcome_Forall2 in H.
  induction H as [|d sc l sims Hs _ IH]; simpl; [reflexivity|].
  now rewrite (score_sdoc _ _ _ Hs), IH.
Qed.

(** X6. Under the conditions of the ranking (every stored vector of the
    query's length, no similarity NaN, [k >= 0]) [query] returns the best
    [min k n] records of the [n] in the corpus: every record it leaves out
    has a similarity not above that of any record it returns. *)
Theorem query_top_k :
  forall (s : SimpleVectorDatabase) (q : list number) (k : Z),
    Forall (fun d => exists e, embedding d = Some e /\ length e = length q)
      (this_documents s) ->
    (forall d sc, In d (this_documents s) -> score q d = Returned sc ->
                  PrimFloat.is_nan (similarity sc) = false) ->
    (0 <= k)%Z ->
    exists sims top rest,
      map_outcome (score q) (this_documents s) = Returned sims /\
      query q k s = (Returned (result_of top), s) /\
      Permutation sims (top ++ rest) /\
      length top = Nat.min (Z.to_nat k) (length (this_documents s)) /\
      forall a b, In a top -> In b rest ->
                  (similarity b <=? similarity a)%float = true.
Proof.
  intros s q k Hlen Hnan Hk.
  destruct (map_outcome_total (score q) (this_documents s)) as (sims & Hsims).
  { eapply Forall_impl; [|exact Hlen]. intros d (e & He & Hl). unfold score.
    rewrite He. destruct (cosineSimilarity_Returned q e) as (v & ->); eauto. }
  set (ok := fun sc : scored => PrimFloat.is_nan (similarity sc) = false).
  set (key := fun sc : scored => F2Z (similarity sc)).
  assert (Hok : Forall ok sims).
  { apply Forall_forall. intros sc Hin.
    destruct (map_outcome_In _ _ _ _ Hsims Hin) as (d & Hd & Hs).
    exact (Hnan d sc Hd Hs). }
  assert (Hcmp : forall x y, ok x -> ok y ->
             (0 <? by_similarity x y)%float = (key x <? key y)%Z).
  { intros x y. apply by_similarity_key. }
  set (sorted := sort by_similarity sims).
  set (n := Z.to_nat (relative_index (Z.of_nat (length sorted)) k)).
  exists sims, (firstn n sorted), (skipn n sorted).
  split; [exact Hsims|]. split; [|split; [|split]].
  - rewrite query_unfold. destruct (this_documents s) as [|d l] eqn:E.
    + simpl in Hsims. injection Hsims as <-. unfold n, sorted. simpl.
      now rewrite firstn_nil.
    + rewrite Hsims. unfold n, sorted. now rewrite slice_prefix.
  - rewrite firstn_skipn. apply sort_perm.
  - rewrite length_firstn. unfold n, sorted, relative_index.
    rewrite sort_length, (map_outcome_length _ _ _ Hsims).
    destruct (Z.ltb_spec k 0); lia.
  - intros a b Ha Hb.
    assert (Hs : StronglySorted (fun a b => (key b <= key a)%Z)
                   (firstn n sorted ++ skipn n sorted)).
    { rewrite firstn_skipn. now apply (sort_sorted _ by_similarity key ok). }
    pose proof (StronglySorted_app_cross _ _ _ Hs a b Ha Hb) as Hab.
    assert (Hin : forall x, In x sorted -> ok x).
    { intros x Hx. apply sort_In in Hx. rewrite Forall_forall in Hok. auto. }
    rewrite leb_F2Z.
    + now apply Z.leb_le.
    + apply Hin. rewrite <- (firstn_skipn n sorted). apply in_or_app. now right.
    + apply Hin. rewrite <- (firstn_skipn n sorted). apply in_or_app. now left.
Qed.

Lemma query_top_k_witness :
  let s := {| this_documents :=
                [ {| id := Some "A"%string; text := "a"%string;
                     embedding := Some [1; 0]%float |};
                  {| id := Some "B"%string; text := "b"%string;
                     embedding := Some [0; 1]%float |};
                  {| id := Some "C"%string; text := "c"%string;
                     embedding := Some [0x1.ccccccccccccdp-1; 0x1.999999999999ap-4]%float |} ];
              dataFile := Absent; write_failure := None |} in
  exists top rest,
    query [1; 0]%float 2 s = (Returned (result_of top), s) /\
    length top = 2 /\
    forall a b, In a top -> In b rest ->
                (similarity b <=? similarity a)%float = true.
Proof.
  intro s.
  destruct (query_top_k s [1; 0]%float 2) as (sims & top & rest & _ & Hq & _ & Hl & H).
  - repeat constructor; eexists; split; reflexivity.
  - intros d sc [<-|[<-|[<-|[]]]] Hs; vm_compute in Hs; injection Hs as <-;
      reflexivity.
  - lia.
  - exists top, rest. split; [exact Hq|]. split; [exact Hl|exact H].
Defined.

(** X7. When the count is at least the size of the corpus, a result of
    [query] holds every record of the corpus exactly once: its ids are a
    rearrangement of the ids of the corpus, and so are its texts.  (This
    needs no condition on the similarities.) *)
Theorem query_returns_all :
  forall (s : SimpleVectorDatabase) (q : list number) (k : Z) r s',
    query q k s = (Returned r, s') ->
    (Z.of_nat (length (this_documents s)) <= k)%Z ->
    Permutation (ids r) (map id (this_documents s)) /\
    Permutation (documents r) (map text (this_documents s)).
Proof.
  intros s q k r s' H Hk.
  apply query_Returned in H as [_ [[E ->]|(sims & Hm & ->)]].
  - rewrite E. split; constructor.
  - rewrite slice_all
      by (rewrite sort_length, (map_outcome_length _ _ _ Hm); assumption).
    simpl. rewrite <- (map_outcome_sdoc _ _ _ Hm), !map_map.
    split; apply Permutation_map, Permutation_sym, sort_perm.
Qed.

Lemma query_returns_all_witness :
  let s := {| this_documents :=
                [ {| id := Some "B"%string; text := "b"%string;
                     embedding := Some [0; 1]%float |};
                  {| id := Some "A"%string; text := "a"%string;
                     embedding := Some [infinity; 0]%float |};
                  {| id := Some "C"%string; text := "c"%string;
                     embedding := Some [1; 0]%float |} ];
              dataFile := Absent; write_failure := None |} in
  exists r, query [1; 0]%float 5 s = (Returned r, s) /\
            Permutation (ids r) [Some "B"; Some "A"; Some "C"]%string.
Proof.
  intro s. eexists. split; [vm_compute; reflexivity|].
  refine (proj1 (query_returns_all s [1; 0]%float 5 _ s _ _)).
  - vm_compute. reflexivity.
  - simpl. lia.
Defined.

(** ** cosineSimilarity: symmetry, and the zero query *)

Lemma float_mul_comm (x y : number) : (x * y)%float = (y * x)%float.
Proof.
  apply Prim2SF_inj. rewrite !mul_spec. unfold SF64mul, SFmul.
  destruct (Prim2SF x) as [sx|sx| |sx mx ex], (Prim2SF y) as [sy|sy| |sy my ey];
    try reflexivity; try (now rewrite xorb_comm).
  now rewrite xorb_comm, Pos.mul_comm, Z.add_comm.
Qed.

Lemma cosine_loop_swap a : forall b d na nb,
  cosine_loop b a d nb na
  = let '(d', na', nb') := cosine_loop a b d na nb in (d', nb', na').
Proof.
  induction a as [|x a IH]; intros [|y b] d na nb; try reflexivity.
  simpl. rewrite IH, (float_mul_comm y x). reflexivity.
Qed.

(** X8. [cosineSimilarity] is symmetric, bit for bit: [cosineSimilarity a b]
    and [cosineSimilarity b a] return the same number, or throw the same
    error when the lengths differ. *)
Theorem cosineSimilarity_symmetric :
  forall a b : list number, cosineSimilarity a b = cosineSimilarity b a.
Proof.
  intros a b. unfold cosineSimilarity. rewrite (Nat.eqb_sym (length b)).
  destruct (length a =? length b)%nat; [|reflexivity]. simpl.
  rewrite (cosine_loop_swap a b).
  destruct (cosine_loop a b 0%float 0%float 0%float) as [[d na] nb].
  rewrite (orb_comm (sqrt nb =? 0)%float), (float_mul_comm (sqrt nb)).
  reflexivity.
Qed.

Lemma map_outcome_map {A B} (f : A -> outcome B) (g : A -> B) l :
  (forall x, In x l -> f x = Returned (g x)) ->
  map_outcome f l = Returned (map g l).
Proof.
  induction l as [|x l IH]; intro H; simpl; [reflexivity|].
  rewrite (H x) by now left. rewrite IH; [reflexivity|].
  intros y Hy. apply H. now right.
Qed.

(** A comparator that is never positive leaves the array as it is. *)
Lemma sort_unchanged {A} (comparefn : A -> A -> number) l :
  (forall x y, In x l -> In y l -> (0 <? comparefn x y)%float = false) ->
  sort comparefn l = l.
Proof.
  induction l as [|x l IH]; intro H; simpl; [reflexivity|].
  rewrite IH by (intros; apply H; now right).
  destruct l as [|y l]; [reflexivity|]. simpl.
  rewrite H; [reflexivity|now left|right; now left].
Qed.

Lemma slice_firstn {A} (l : list A) (k : Z) :
  (0 <= k)%Z -> slice l 0 k = firstn (Z.to_nat k) l.
Proof.
  intro H. rewrite slice_prefix. unfold relative_index.
  destruct (Z.ltb_spec k 0); [lia|].
  destruct (Z.le_gt_cases k (Z.of_nat (length l))).
  - now rewrite Z.min_l.
  - rewrite Z.min_r, Nat2Z.id by lia.
    rewrite firstn_all. symmetry. apply firstn_all2. lia.
Qed.

(** X9. A query vector of zeros scores every record 0: on a corpus whose
    vectors have the query's length, [query] then returns the first [k]
    records of the corpus in corpus order, each at distance 1. *)
Theorem query_zero_vector :
  forall (s : SimpleVectorDatabase) (q : list number) (k : Z),
    Forall (fun x => (x =? 0)%float = true) q ->
    Forall (fun d => exists e, embedding d = Some e /\ length e = length q)
      (this_documents s) ->
    (0 <= k)%Z ->
    let first := firstn (Z.to_nat k) (this_documents s) in
    query q k s
    = (Returned {| documents := map text first;
                   ids := map id first;
                   distances := map (fun _ => 1%float) first |}, s).
Proof.
  intros s q k Hq Hlen Hk first.
  set (mk := fun d => {| sdoc := d; similarity := 0%float; distance := 1%float |}).
  assert (Hsims : map_outcome (score q) (this_documents s)
                  = Returned (map mk (this_documents s))).
  { apply map_outcome_map. intros d Hd. rewrite Forall_forall in Hlen.
    destruct (Hlen d Hd) as (e & He & Hl). unfold score. rewrite He.
    rewrite cosineSimilarity_value by congruence.
    now rewrite (norm_zero q Hq). }
  rewrite query_unfold, Hsims.
  destruct (this_documents s) as [|d l] eqn:E.
  { unfold first. now rewrite firstn_nil. }
  rewrite sort_unchanged.
  - rewrite slice_firstn by assumption. unfold result_of, first.
    rewrite <- !firstn_map, !map_map. reflexivity.
  - intros x y Hx Hy. apply in_map_iff in Hx as (dx & <- & _).
    apply in_map_iff in Hy as (dy & <- & _). reflexivity.
Qed.

Lemma query_zero_vector_witness :
  let s := {| this_documents :=
                [ {| id := Some "A"%string; text := "a"%string;
                     embedding := Some [1; 0]%float |};
                  {| id := Some "B"%string; text := "b"%string;
                     embedding := Some [0; 1]%float |};
                  {| id := Some "C"%string; text := "c"%string;
                     embedding := Some [3; 4]%float |} ];
              dataFile := Absent; write_failure := None |} in
  query [0; -0]%float 2 s
  = (Returned {| documents := ["a"; "b"]%string;
                 ids := [Some "A"; Some "B"]%string;
                 distances := [1; 1]%float |}, s).
Proof.
  intro s. apply (query_zero_vector s [0; -0]%float 2).
  - repeat constructor.
  - repeat constructor; eexists; split; reflexivity.
  - lia.
Defined.

(** ** UpstashDatabase: exhaustion of the retries, initialize, distances *)

Lemma waited_app l1 l2 : waited (l1 ++ l2) = (waited l1 + waited l2)%Z.
Proof.
  induction l1 as [|[|ms] l1 IH]; simpl; [reflexivity|assumption|].
  rewrite IH. lia.
Qed.

Lemma invocations_app l1 l2 :
  invocations (l1 ++ l2) = invocations l1 + invocations l2.
Proof. unfold invocations. now rewrite filter_app, length_app. Qed.

Section UpstashMore.
Variable W : Type.
Variable number_to_string : number -> string.
Variable new_Index : string -> string -> Index W.

Lemma retry_loop_exhausted {T} (op : M W T) :
  (forall w, exists e w', op w = (Thrown e, w')) ->
  forall fuel i last (s : UpstashDatabase W),
    i + S fuel = retryAttempts s ->
    exists e s' events,
      retry_loop op (S fuel) i last s = (Thrown e, s') /\
      s' = after s (remote s') events /\
      invocations events = S fuel /\
      waited events
      = (retryDelay s * (2 ^ Z.of_nat (retryAttempts s - 1) - 2 ^ Z.of_nat i))%Z /\
      exists w, op w = (Thrown e, remote s').
Proof.
  intro Hop. induction fuel as [|fuel IH]; intros i last s Hn.
  - rewrite retry_loop_step. destruct (Hop (remote s)) as (e & w & Hw).
    rewrite Hw. replace (i <? retryAttempts s - 1)%nat with false
      by (symmetry; apply Nat.ltb_ge; lia).
    exists e, (after s w [Invoke]), [Invoke]. simpl. repeat split.
    + replace (retryAttempts s - 1) with i by lia. lia.
    + now exists (remote s).
  - rewrite retry_loop_step. destruct (Hop (remote s)) as (e & w & Hw).
    rewrite Hw. replace (i <? retryAttempts s - 1)%nat with true
      by (symmetry; apply Nat.ltb_lt; lia).
    set (s1 := after s w [Invoke; Timeout (retryDelay s * 2 ^ Z.of_nat i)]).
    destruct (IH (S i) (Some e) s1 ltac:(simpl; lia))
      as (e' & s' & events & Hr & Hs' & Hi & Hw' & Hlast).
    exists e', s', ([Invoke; Timeout (retryDelay s * 2 ^ Z.of_nat i)] ++ events).
    split; [exact Hr|]. split; [|split; [|split]].
    + rewrite Hs' at 1. unfold s1. now rewrite after_after.
    + rewrite invocations_app, Hi. reflexivity.
    + rewrite waited_app, Hw'. simpl retryDelay. simpl retryAttempts.
      cbn [waited app]. rewrite Nat2Z.inj_succ, Z.pow_succ_r by lia. lia.
    + exact Hlast.
Qed.

(** X10. Whatever positive number [retryAttempts] holds: against an
    operation that throws at every call, [withRetry] calls it exactly
    [retryAttempts] times, waits [retryDelay * (2^(retryAttempts-1) - 1)] in
    all (3000 ms with the values of the class), and throws what the last
    call threw. *)
Theorem withRetry_exhausted {T} (op : M W T) (s : UpstashDatabase W) :
  (forall w, exists e w', op w = (Thrown e, w')) ->
  1 <= retryAttempts s ->
  exists e s' events,
    withRetry op s = (Thrown e, s') /\
    s' = after s (remote s') events /\
    invocations events = retryAttempts s /\
    waited events = (retryDelay s * (2 ^ Z.of_nat (retryAttempts s - 1) - 1))%Z /\
    exists w, op w = (Thrown e, remote s').
Proof.
  intros Hop Hn. unfold withRetry.
  destruct (retryAttempts s) as [|fuel] eqn:E; [lia|].
  destruct (retry_loop_exhausted op Hop fuel 0 None s ltac:(lia))
    as (e & s' & events & Hr & Hs' & Hi & Hw & Hlast).
  exists e, s', events. rewrite E in Hw. repeat split; assumption.
Qed.

(** X11. [initialize] throws the credentials error exactly when the URL or
    the token is missing or empty, and then it has made no call and has not
    assigned [this.index]. *)
Theorem upstash_initialize_credentials (config : Config) (s : UpstashDatabase W) :
  (fst (upstash_initialize new_Index config s) = Thrown CredentialsRequired
   <-> truthy (UPSTASH_VECTOR_URL config) = false \/
       truthy (UPSTASH_VECTOR_TOKEN config) = false) /\
  (truthy (UPSTASH_VECTOR_URL config) = false \/
   truthy (UPSTASH_VECTOR_TOKEN config) = false ->
   upstash_initialize new_Index config s = (Thrown CredentialsRequired, s)).
Proof.
  unfold upstash_initialize, invoke.
  destruct (UPSTASH_VECTOR_URL config) as [url|];
    destruct (UPSTASH_VECTOR_TOKEN config) as [token|];
    try (split; [split|]; intros; simpl; auto; fail).
  destruct (truthy (Some url)) eqn:Eu, (truthy (Some token)) eqn:Et; simpl;
    try (split; [split|]; intros; auto; fail).
  destruct (index_query _ _ _) as [[rs|e] w]; simpl; split; [split| |split|];
    try discriminate; intros [H|H]; discriminate.
Qed.

(** X12. Once past the credentials test, [initialize] assigns [this.index]
    and makes exactly one call, whether the verification succeeds or not:
    after a failed verification the client is set all the same, so a later
    [getExistingIds] calls the service instead of throwing the
    not-initialized error. *)
Theorem upstash_initialize_assigns (config : Config) (s : UpstashDatabase W) r s' :
  upstash_initialize new_Index config s = (r, s') ->
  r <> Thrown CredentialsRequired ->
  (r = Returned tt \/ r = Thrown VerificationFailed) /\
  (exists url token,
     UPSTASH_VECTOR_URL config = Some url /\
     UPSTASH_VECTOR_TOKEN config = Some token /\
     index s' = Some (new_Index url token)) /\
  log s' = log s ++ [Invoke] /\
  exists l s'', upstash_getExistingIds number_to_string s' = (Returned l, s'').
Proof.
  unfold upstash_initialize, invoke. intros H Hr.
  destruct (UPSTASH_VECTOR_URL config) as [url|];
    [|injection H as <- _; contradiction].
  destruct (UPSTASH_VECTOR_TOKEN config) as [token|];
    [|injection H as <- _; contradiction].
  destruct (truthy (Some url) && truthy (Some token));
    [|injection H as <- _; contradiction].
  simpl in H.
  destruct (index_query (new_Index url token) verify_query (remote s))
    as [[rs|e] w]; injection H as <- <-.
  - split; [now left|]. split; [now exists url, token|]. split; [reflexivity|].
    unfold upstash_getExistingIds, invoke. simpl.
    destruct (index_query _ bootstrap_query w) as [[rs'|e'] w']; eauto.
  - split; [now right|]. split; [now exists url, token|]. split; [reflexivity|].
    unfold upstash_getExistingIds, invoke. simpl.
    destruct (index_query _ bootstrap_query w) as [[rs'|e'] w']; eauto.
Qed.

(** X13. The factory and [initialize] test the credentials alike: with the
    selector on [upstash], the factory builds the Upstash client exactly when
    [initialize] will not throw the credentials error. *)
Theorem createVectorDatabase_initialize (config : Config) (s : UpstashDatabase W) :
  VECTOR_DB_TYPE config = upstash ->
  (createVectorDatabase config = new_UpstashDatabase_
   <-> fst (upstash_initialize new_Index config s) <> Thrown CredentialsRequired).
Proof.
  intro Ht. unfold createVectorDatabase, upstash_initialize, invoke. rewrite Ht.
  cbn [is_upstash andb].
  destruct (UPSTASH_VECTOR_URL config) as [url|];
    [|split; [discriminate|intro H; now contradiction H]].
  destruct (UPSTASH_VECTOR_TOKEN config) as [token|].
  2:{ rewrite andb_false_r. split; [discriminate|intro H; now contradiction H]. }
  destruct (truthy (Some url) && truthy (Some token));
    [|split; [discriminate|intro H; now contradiction H]].
  split; [|reflexivity]. intros _.
  destruct (index_query _ _ _) as [[rs|e] w]; discriminate.
Qed.

Lemma score_or_0_not_nan (r : QueryResult) : PrimFloat.is_nan (score_or_0 r) = false.
Proof.
  unfold score_or_0. destruct (r_score r) as [x|]; [|reflexivity].
  destruct (x =? 0)%float; [reflexivity|]. simpl.
  destruct (PrimFloat.is_nan x) eqn:E; [reflexivity|exact E].
Qed.

(** X14. A result of [UpstashDatabase.query] has four arrays of the length of
    the service's answer, and none of its distances is NaN, whatever scores
    the service sent (a missing, zero or NaN score counts as 0). *)
Theorem upstash_query_distances (q : list number) (k : Z)
    (s : UpstashDatabase W) r s' :
  upstash_query number_to_string q k s = (Returned r, s') ->
  length (u_ids r) = length (u_documents r) /\
  length (u_distances r) = length (u_documents r) /\
  length (u_metadatas r) = length (u_documents r) /\
  Forall (fun d => PrimFloat.is_nan d = false) (u_distances r).
Proof.
  unfold upstash_query. destruct (index s) as [idx|]; [|discriminate].
  destruct (withRetry _ s) as [[results|e] s1]; [|discriminate].
  intro H. injection H as <- _. simpl. rewrite !length_map.
  repeat split. apply Forall_map, Forall_forall. intros x _.
  now apply sub_one, score_or_0_not_nan.
Qed.
End UpstashMore.

Lemma withRetry_exhausted_witness :
  let down : M unit (list QueryResult) :=
    fun w => (Thrown (Error "ECONNREFUSED"), w) in
  exists e s' events,
    withRetry down (new_UpstashDatabase tt) = (Thrown e, s') /\
    invocations events = 3 /\ waited events = 3000%Z.
Proof.
  intro down.
  destruct (withRetry_exhausted unit down (new_UpstashDatabase tt))
    as (e & s' & events & Hr & _ & Hi & Hw & _).
  - intro w. now exists (Error "ECONNREFUSED"), w.
  - simpl. lia.
  - exists e, s', events. split; [exact Hr|]. split; [exact Hi|exact Hw].
Defined.

Lemma upstash_initialize_assigns_witness :
  let unreachable : string -> string -> Index unit := fun _ _ =>
    {| index_query := fun _ w => (Thrown (Error "ECONNREFUSED"), w);
       index_upsert := fun _ w => (Thrown (Error "ECONNREFUSED"), w) |} in
  let config := {| VECTOR_DB_TYPE := upstash;
                   UPSTASH_VECTOR_URL := Some "https://example.upstash.io"%string;
                   UPSTASH_VECTOR_TOKEN := Some "token"%string |} in
  let s := new_UpstashDatabase tt in
  fst (upstash_initialize unreachable config s) = Thrown VerificationFailed /\
  exists l s'',
    upstash_getExistingIds (fun _ => EmptyString)
      (snd (upstash_initialize unreachable config s)) = (Returned l, s'').
Proof.
  intros unreachable config s. split; [reflexivity|].
  refine (proj2 (proj2 (proj2
    (upstash_initialize_assigns unit (fun _ => EmptyString) unreachable config s
       (Thrown VerificationFailed) _ eq_refl _)))).
  discriminate.
Defined.

Lemma createVectorDatabase_initialize_witness :
  let reachable : string -> string -> Index unit := fun _ _ =>
    {| index_query := fun _ w => (Returned [], w);
       index_upsert := fun _ w => (Returned tt, w) |} in
  let config := {| VECTOR_DB_TYPE := upstash;
                   UPSTASH_VECTOR_URL := Some "https://example.upstash.io"%string;
                   UPSTASH_VECTOR_TOKEN := Some "token"%string |} in
  fst (upstash_initialize reachable config (new_UpstashDatabase tt))
  <> Thrown CredentialsRequired.
Proof.
  intros reachable config.
  apply (createVectorDatabase_initialize unit reachable config
           (new_UpstashDatabase tt) eq_refl).
  reflexivity.
Defined.

Lemma upstash_query_distances_witness :
  let answers : Index unit :=
    {| index_query := fun _ w =>
         (Returned [ {| r_id := inl "7"%string; r_score := Some nan;
                        r_metadata := None |};
                     {| r_id := inl "8"%string; r_score := None;
                        r_metadata := None |} ], w);
       index_upsert := fun _ w => (Returned tt, w) |} in
  let s := {| index := Some answers; retryAttempts := 3; retryDelay := 1000;
              remote := tt; log := [] |} in
  exists r s',
    upstash_query (fun _ => EmptyString) [1; 0]%float 2 s = (Returned r, s') /\
    Forall (fun d => PrimFloat.is_nan d = false) (u_distances r).
Proof.
  intros answers s. eexists. eexists. split; [reflexivity|].
  refine (proj2 (proj2 (proj2
    (upstash_query_distances unit (fun _ => EmptyString) [1; 0]%float 2 s _ _
       eq_refl)))).
Defined.

(** ** The factory and the environment *)

(** X15. What the factory builds, for every configuration: the Upstash
    client exactly when the selector is [upstash] and both credentials are
    non-empty strings; the Chroma client exactly when the selector is
    [chroma], whatever the credentials; the in-memory store otherwise. *)
Theorem createVectorDatabase_cases :
  forall config : Config,
    (createVectorDatabase config = new_UpstashDatabase_
     <-> VECTOR_DB_TYPE config = upstash /\
         truthy (UPSTASH_VECTOR_URL config) = true /\
         truthy (UPSTASH_VECTOR_TOKEN config) = true) /\
    (createVectorDatabase config = new_ChromaDatabase
     <-> VECTOR_DB_TYPE config = chroma) /\
    (createVectorDatabase config = new_SimpleVectorDatabase
     <-> VECTOR_DB_TYPE config = simple \/
         (VECTOR_DB_TYPE config = upstash /\
          (truthy (UPSTASH_VECTOR_URL config) = false \/
           truthy (UPSTASH_VECTOR_TOKEN config) = false))).
Proof.
  intro config. unfold createVectorDatabase.
  destruct (VECTOR_DB_TYPE config); cbn [is_upstash andb];
    destruct (truthy (UPSTASH_VECTOR_URL config));
    destruct (truthy (UPSTASH_VECTOR_TOKEN config)); cbn [andb];
    repeat split; try discriminate; try tauto; intuition discriminate.
Qed.

Lemma parse_db_type_Some v t :
  parse_db_type v = Some t <->
  (v = None /\ t = upstash) \/ (v = Some "chroma"%string /\ t = chroma) \/
  (v = Some "upstash"%string /\ t = upstash) \/
  (v = Some "simple"%string /\ t = simple).
Proof.
  unfold parse_db_type. destruct v as [x|].
  - destruct (String.eqb_spec x "chroma") as [->|N1].
    { split; [intro H; injection H as <-; auto|].
      intros [[H _]|[[_ <-]|[[H _]|[H _]]]]; congruence. }
    destruct (String.eqb_spec x "upstash") as [->|N2].
    { split; [intro H; injection H as <-; auto|].
      intros [[H _]|[[H _]|[[_ <-]|[H _]]]]; congruence. }
    destruct (String.eqb_spec x "simple") as [->|N3].
    { split; [intro H; injection H as <-; auto 6|].
      intros [[H _]|[[H _]|[[H _]|[_ <-]]]]; congruence. }
    split; [discriminate|].
    intros [[H _]|[[H _]|[[H _]|[H _]]]]; congruence.
  - split; [intro H; injection H as <-; auto|].
    intros [[_ <-]|[[H _]|[[H _]|[H _]]]]; congruence.
Qed.

Lemma parse_embedding_provider_Some v :
  (exists t, parse_embedding_provider v = Some t) <->
  v = None \/ v = Some "ollama"%string \/ v = Some "clarifai"%string.
Proof.
  unfold parse_embedding_provider. destruct v as [x|].
  - destruct (String.eqb_spec x "ollama") as [->|N1]; [split; eauto|].
    destruct (String.eqb_spec x "clarifai") as [->|N2]; [split; eauto|].
    split; [intros (t & H); discriminate|].
    intros [H|[H|H]]; congruence.
  - split; eauto.
Qed.

Lemma parse_llm_provider_Some v :
  (exists t, parse_llm_provider v = Some t) <->
  v = None \/ v = Some "ollama"%string \/ v = Some "groq"%string.
Proof.
  unfold parse_llm_provider. destruct v as [x|].
  - destruct (String.eqb_spec x "ollama") as [->|N1]; [split; eauto|].
    destruct (String.eqb_spec x "groq") as [->|N2]; [split; eauto|].
    split; [intros (t & H); discriminate|].
    intros [H|[H|H]]; congruence.
  - split; eauto.
Qed.

(** X16. [validateEnv] returns a configuration exactly when each of the
    three enumerated variables is unset or spelled as one of its listed
    values; in every other case (an empty string included) it throws the
    invalid-environment error.  No other variable can make it fail. *)
Theorem validateEnv_accepts :
  forall env : Env,
    let listed (v : option string) (values : list string) :=
      v = None \/ exists x, v = Some x /\ In x values in
    ((exists c, validateEnv env = Returned c) <->
     listed (env_VECTOR_DB_TYPE env) ["chroma"; "upstash"; "simple"]%string /\
     listed (env_EMBEDDING_PROVIDER env) ["ollama"; "clarifai"]%string /\
     listed (env_LLM_PROVIDER env) ["ollama"; "groq"]%string) /\
    ((exists c, validateEnv env = Returned c) \/
     validateEnv env = Thrown InvalidEnvironment).
Proof.
  intros env listed. split.
  - unfold validateEnv, listed. split.
    + intros (c & H).
      destruct (parse_db_type (env_VECTOR_DB_TYPE env)) as [db|] eqn:E1;
        [|discriminate].
      destruct (parse_embedding_provider (env_EMBEDDING_PROVIDER env)) as [emb|] eqn:E2;
        [|discriminate].
      destruct (parse_llm_provider (env_LLM_PROVIDER env)) as [llm|] eqn:E3;
        [|discriminate].
      split; [|split].
      * apply parse_db_type_Some in E1 as [[-> _]|[[-> _]|[[-> _]|[-> _]]]];
          [now left|right; eexists; split; [reflexivity|simpl; auto]..].
      * destruct (proj1 (parse_embedding_provider_Some _) (ex_intro _ emb E2))
          as [->|[->| ->]];
          [now left|right; eexists; split; [reflexivity|simpl; auto]..].
      * destruct (proj1 (parse_llm_provider_Some _) (ex_intro _ llm E3))
          as [->|[->| ->]];
          [now left|right; eexists; split; [reflexivity|simpl; auto]..].
    + intros (H1 & H2 & H3).
      assert (P1 : exists t, parse_db_type (env_VECTOR_DB_TYPE env) = Some t).
      { destruct H1 as [->|(x & -> & [<-|[<-|[<-|[]]]])]; simpl; eauto. }
      assert (P2 : exists t, parse_embedding_provider (env_EMBEDDING_PROVIDER env) = Some t).
      { destruct H2 as [->|(x & -> & [<-|[<-|[]]])]; simpl; eauto. }
      assert (P3 : exists t, parse_llm_provider (env_LLM_PROVIDER env) = Some t).
      { destruct H3 as [->|(x & -> & [<-|[<-|[]]])]; simpl; eauto. }
      destruct P1 as (t1 & ->), P2 as (t2 & ->), P3 as (t3 & ->). eauto.
  - unfold validateEnv.
    destruct (parse_db_type _); [|now right].
    destruct (parse_embedding_provider _); [|now right].
    destruct (parse_llm_provider _); [|now right]. left. eauto.
Qed.

(** X17. From the environment to the backend: when [validateEnv] accepts the
    environment, the factory builds the Upstash client exactly when
    [VECTOR_DB_TYPE] is unset or ["upstash"] and both credentials are set to
    non-empty strings; in particular an environment that sets none of the
    three variables gets the in-memory store. *)
Theorem validateEnv_createVectorDatabase :
  forall (env : Env) (c : EnvConfig),
    validateEnv env = Returned c ->
    (createVectorDatabase (config_of c) = new_UpstashDatabase_
     <-> (env_VECTOR_DB_TYPE env = None \/
          env_VECTOR_DB_TYPE env = Some "upstash"%string) /\
         truthy (env_UPSTASH_VECTOR_URL env) = true /\
         truthy (env_UPSTASH_VECTOR_TOKEN env) = true) /\
    (env_VECTOR_DB_TYPE env = None ->
     env_UPSTASH_VECTOR_URL env = None ->
     env_UPSTASH_VECTOR_TOKEN env = None ->
     createVectorDatabase (config_of c) = new_SimpleVectorDatabase).
Proof.
  intros env c H. unfold validateEnv in H.
  destruct (parse_db_type (env_VECTOR_DB_TYPE env)) as [db|] eqn:E1; [|discriminate].
  destruct (parse_embedding_provider _); [|discriminate].
  destruct (parse_llm_provider _); [|discriminate].
  injection H as <-. unfold createVectorDatabase, config_of. simpl.
  apply parse_db_type_Some in E1.
  split.
  - destruct (truthy (env_UPSTASH_VECTOR_URL env));
      destruct (truthy (env_UPSTASH_VECTOR_TOKEN env));
      destruct E1 as [[-> ->]|[[-> ->]|[[-> ->]|[-> ->]]]]; simpl;
      split; try discriminate; try tauto; intuition discriminate.
  - intros Ht -> ->. rewrite Ht in E1.
    destruct E1 as [[_ ->]|[[? _]|[[? _]|[? _]]]]; try discriminate. reflexivity.
Qed.

Lemma validateEnv_createVectorDatabase_witness :
  let unset := {| env_VECTOR_DB_TYPE := None; env_CHROMA_PATH := None;
                  env_UPSTASH_VECTOR_URL := None; env_UPSTASH_VECTOR_TOKEN := None;
                  env_EMBEDDING_PROVIDER := None; env_LLM_PROVIDER := None;
                  env_OLLAMA_BASE_URL := None; env_EMBED_MODEL := None;
                  env_LLM_MODEL := None; env_CLARIFAI_PAT := None;
                  env_CLARIFAI_MODEL_URL := None; env_GROQ_API_KEY := None;
                  env_GROQ_MODEL := None |} in
  exists c, validateEnv unset = Returned c /\
            cfg_VECTOR_DB_TYPE c = upstash /\
            createVectorDatabase (config_of c) = new_SimpleVectorDatabase.
Proof.
  intro unset. eexists. split; [reflexivity|]. split; [reflexivity|].
  exact (proj2 (validateEnv_createVectorDatabase unset _ eq_refl)
           eq_refl eq_refl eq_refl).
Defined.
